(** * make-profiler: the Makefile linter ([make_profiler/lint_makefile.py])

    A shallow embedding of the linter's target model, its validators, the
    validation orchestrator and the summary reporter, together with the
    properties of the specification that were checked against it.

    Conventions of the embedding.
    - A Python [str] is a [string]; each character stands for one code point
      below 256.  Whitespace is what [str.isspace] accepts in that range.
    - A Python [int] is a [Z]; list indices produced by the code itself
      ([enumerate], the scanner's counter) are non-negative.
    - [set] is [gset], [dict] is [gmap].  Iterating a set visits
      [elements s]; no statement below depends on that order.
    - The objects a run of [validate] receives by reference (the raw lines,
      the target records, the dependency set, the reverse-dependency map and
      the [errors] list) together with the diagnostic stream live in a
      [store]; validators are state transformers over it.
    - The file system is a read-only oracle ([filesystem]). *)

From Stdlib Require Import ZArith Ascii String.
From stdpp Require Import base decidable option list sorting gmap strings pretty.

Local Open Scope Z_scope.

(** ** Python string operations *)

Module PyStr.

(** [str.isspace] on one character (code points below 256). *)
Definition is_space (c : ascii) : bool :=
  match c with
  | "009" | "010" | "011" | "012" | "013"
  | "028" | "029" | "030" | "031" | " "
  | "133" | "160" => true
  | _ => false
  end%char.

Definition newline : ascii := "010"%char.

(** The string holding one tab character. *)
Definition tab : string := String "009"%char EmptyString.

Definition is_empty (s : string) : bool :=
  match s with EmptyString => true | String _ _ => false end.

(** [s.lstrip()] *)
Fixpoint lstrip (s : string) : string :=
  match s with
  | EmptyString => EmptyString
  | String c s' => if is_space c then lstrip s' else s
  end.

(** [s.rstrip()] *)
Fixpoint rstrip (s : string) : string :=
  match s with
  | EmptyString => EmptyString
  | String c s' =>
      let r := rstrip s' in
      if is_empty r && is_space c then EmptyString else String c r
  end.

(** [s.strip()] *)
Definition strip (s : string) : string := rstrip (lstrip s).

(** [s.startswith(p)] *)
Fixpoint startswith (s p : string) {struct p} : bool :=
  match p, s with
  | EmptyString, _ => true
  | String _ _, EmptyString => false
  | String a p', String b s' => if Ascii.eqb a b then startswith s' p' else false
  end.

(** [s.endswith(p)] *)
Fixpoint endswith (s p : string) : bool :=
  String.eqb s p ||
  match s with
  | EmptyString => false
  | String _ s' => endswith s' p
  end.

(** [p in s] *)
Fixpoint contains (p s : string) : bool :=
  startswith s p ||
  match s with
  | EmptyString => false
  | String _ s' => contains p s'
  end.

(** [s.split()]: maximal runs of non-whitespace characters.  [word] is the
    run being read, in order. *)
Fixpoint split_from (word : string) (s : string) : list string :=
  match s with
  | EmptyString => if is_empty word then [] else [word]
  | String c s' =>
      if is_space c
      then (if is_empty word then split_from EmptyString s'
            else word :: split_from EmptyString s')
      else split_from (word +:+ String c EmptyString) s'
  end.

Definition split (s : string) : list string := split_from EmptyString s.

(** [sep.join(parts)] *)
Fixpoint join (sep : string) (parts : list string) : string :=
  match parts with
  | [] => EmptyString
  | [p] => p
  | p :: ps => p +:+ sep +:+ join sep ps
  end.

(** [s[0]], when [s] is not empty. *)
Definition first_char (s : string) : option ascii :=
  match s with EmptyString => None | String c _ => Some c end.

End PyStr.

Import PyStr.

(** ** Data model *)

(** [LintError]: a machine-readable finding. *)
Record LintError := mkLintError {
  error_type : string;
  message : string;
  err_line_number : option Z;
  err_line_text : option string;
}.

(** [TargetData]: one declared target. *)
Record TargetData := mkTargetData {
  name : string;
  doc : string;
  line_number : option Z;
  line_text : option string;
  grouped : bool;
  deps : list string;
  order_only_deps : list string;
}.

Global Instance LintError_eq_dec : EqDecision LintError.
Proof. solve_decision. Defined.

Global Instance TargetData_eq_dec : EqDecision TargetData.
Proof. solve_decision. Defined.

(** [_create_error] *)
Definition _create_error (error_type message : string)
    (line_number : option Z) (line_text : option string) : LintError :=
  {| error_type := error_type; message := message;
     err_line_number := line_number; err_line_text := line_text |}.

(** The file system as the linter sees it: [os.path.exists],
    [os.path.isdir] and [os.getcwd]. *)
Record filesystem := mkFilesystem {
  path_exists : string → bool;
  path_isdir : string → bool;
  getcwd : string;
}.

(** ** The store and its monad *)

(** The objects one validation run works on.  [st_errors] is [None] when the
    caller passed no [errors] list. *)
Record store := mkStore {
  st_lines : list string;
  st_targets : list TargetData;
  st_deps : gset string;
  st_deps_map : gmap string (gset string);
  st_errors : option (list LintError);
  st_stderr : list string;
}.

Definition M (A : Type) : Type := store → A * store.

Definition ret {A} (a : A) : M A := λ s, (a, s).

Definition bind {A B} (m : M A) (k : A → M B) : M B :=
  λ s, let '(a, s') := m s in k a s'.

Notation "'let*' x ':=' m 'in' k" := (bind m (λ x, k))
  (at level 10, x pattern, m at level 100, k at level 200, only parsing).
Notation "m ';;' k" := (bind m (λ _, k))
  (at level 100, k at level 200, right associativity, only parsing).

(** Reading the arguments of the run. *)
Definition get_lines : M (list string) := λ s, (st_lines s, s).
Definition get_targets : M (list TargetData) := λ s, (st_targets s, s).
Definition get_deps : M (gset string) := λ s, (st_deps s, s).
Definition get_deps_map : M (gmap string (gset string)) := λ s, (st_deps_map s, s).

(** [errors is not None] *)
Definition errors_is_not_None : M bool := λ s, (bool_decide (is_Some (st_errors s)), s).

(** [errors.append(e)], for a list that is there. *)
Definition errors_append (e : LintError) : M unit := λ s,
  (tt, {| st_lines := st_lines s; st_targets := st_targets s;
          st_deps := st_deps s; st_deps_map := st_deps_map s;
          st_errors := (λ l, l ++ [e]) <$> st_errors s;
          st_stderr := st_stderr s |}).

(** [print(msg, file=sys.stderr)] *)
Definition print_stderr (msg : string) : M unit := λ s,
  (tt, {| st_lines := st_lines s; st_targets := st_targets s;
          st_deps := st_deps s; st_deps_map := st_deps_map s;
          st_errors := st_errors s;
          st_stderr := st_stderr s ++ [msg] |}).

(** [for x in xs: body], with the loop's local variables threaded as [acc]. *)
Fixpoint for_each {A S} (xs : list A) (acc : S) (body : S → A → M S) : M S :=
  match xs with
  | [] => ret acc
  | x :: xs' => let* acc' := body acc x in for_each xs' acc' body
  end.

(** [enumerate(xs)] *)
Fixpoint enumerate_from {A} (i : Z) (xs : list A) : list (Z * A) :=
  match xs with
  | [] => []
  | x :: xs' => (i, x) :: enumerate_from (i + 1) xs'
  end.

Definition enumerate {A} (xs : list A) : list (Z * A) := enumerate_from 0 xs.

(** The block every validator runs at a violation:
    [print(msg, file=sys.stderr)] followed by
    [if errors is not None: errors.append(_create_error(...))]. *)
Definition report (error_type msg : string)
    (line_number : option Z) (line_text : option string) : M unit :=
  print_stderr msg;;
  let* given := errors_is_not_None in
  if given
  then errors_append (_create_error error_type msg line_number line_text)
  else ret tt.

(** ** Helpers of the validators *)

(** [re.match(r"(?P<target>.+?)(?:&:|:)", text)], the group [target] of the
    match.  [head] is what the lazy [.+?] has consumed so far; [.] does not
    match a newline. *)
Fixpoint target_re_from (head rest : string) : option string :=
  if startswith rest "&:" || startswith rest ":" then Some head
  else match rest with
       | EmptyString => None
       | String c rest' =>
           if Ascii.eqb c newline then None
           else target_re_from (head +:+ String c EmptyString) rest'
       end.

Definition target_re_match (text : string) : option string :=
  match text with
  | EmptyString => None
  | String c rest =>
      if Ascii.eqb c newline then None
      else target_re_from (String c EmptyString) rest
  end.

(** [os.path.isabs] and [os.path.join] (POSIX). *)
Definition isabs (path : string) : bool := startswith path "/".

Definition path_join (a b : string) : string :=
  if startswith b "/" then b
  else if is_empty a || endswith a "/" then a +:+ b
  else a +:+ "/" +:+ b.

(** [_resolve_filesystem_path] *)
Definition _resolve_filesystem_path (path root_dir : string) : string :=
  if is_empty root_dir || isabs path then path
  else path_join root_dir path.

(** [sorted(names)] for a set of strings. *)
Definition sorted_names (names : gset string) : list string :=
  merge_sort String.le (elements names).

Section Validators.

Variable fs : filesystem.

(** [_looks_like_directory] *)
Definition _looks_like_directory (path root_dir : string) : bool :=
  if is_empty path
     || existsb (λ char, contains char path)
          ["$"; "*"; "?"; "["; "]"; "%"; "("; ")"]
  then false
  else path_isdir fs (_resolve_filesystem_path path root_dir).

(** [validate_target_comments] *)
Definition validate_target_comments : M bool :=
  let* targets := get_targets in
  for_each targets true (λ is_valid t,
    if is_empty (doc t) then
      let msg := "Target without comments: " +:+ name t in
      report "target without comments" msg (line_number t) (line_text t);;
      ret false
    else ret is_valid).

(** [validate_orphan_targets] *)
Definition validate_orphan_targets : M bool :=
  let* targets := get_targets in
  let* deps := get_deps in
  for_each targets true (λ is_valid t,
    if bool_decide (name t ∉ deps) && negb (contains "[FINAL]" (doc t)) then
      let msg := name t +:+
        ", is orphan - not marked as [FINAL] and no other target depends on it" in
      report "orphan target" msg (line_number t) (line_text t);;
      ret false
    else ret is_valid).

(** [validate_missing_rules] *)
Definition validate_missing_rules (root_dir : string) : M bool :=
  let* targets := get_targets in
  let* deps := get_deps in
  let* deps_map := get_deps_map in
  let target_map : gmap string TargetData :=
    foldl (λ m t, <[name t := t]> m) ∅ targets in
  let target_names : gset string := dom target_map in
  for_each (elements deps) true (λ is_valid dep,
    let candidate := _resolve_filesystem_path dep root_dir in
    if bool_decide (dep ∉ target_names) && negb (path_exists fs candidate) then
      for_each (sorted_names (default ∅ (deps_map !! dep))) tt (λ _ parent,
        let msg := "No rule to make target '" +:+ dep +:+
                   "', needed by '" +:+ parent +:+ "'" in
        let t := target_map !! parent in
        report "missing rule" msg (t ≫= line_number) (t ≫= line_text));;
      ret false
    else ret is_valid).

(** [validate_spaces] *)
Definition validate_spaces : M bool :=
  let* lines := get_lines in
  let* (is_valid, _) :=
    for_each (enumerate lines) (true, EmptyString) (λ '(is_valid, prev_line) '(i, line),
      let* is_valid :=
        if negb (String.eqb (rstrip line) line) then
          let msg := "Trailing spaces (" +:+ pretty i +:+ "): " +:+ line in
          report "trailing spaces" msg (Some i) (Some line);;
          ret false
        else ret is_valid in
      if endswith (rstrip prev_line) "\" then ret (is_valid, line)
      else
        let* is_valid :=
          if startswith line " " && negb (startswith line tab) then
            let msg := "Space instead of tab (" +:+ pretty i +:+ "): " +:+ line in
            report "space instead of tab" msg (Some i) (Some line);;
            ret false
          else ret is_valid in
        ret (is_valid, line)) in
  ret is_valid.

(** [validate_multiple_targets_colon] *)
Definition validate_multiple_targets_colon : M bool :=
  let* targets := get_targets in
  for_each targets true (λ is_valid t,
    match grouped t, line_text t with
    | false, Some text =>
        match target_re_match text with
        | Some target =>
            let names := split target in
            if bool_decide (1 < length names)%nat then
              let msg :=
                "Multiple targets defined with ':' may run several times in parallel: "
                +:+ target +:+ ". Use '&:' to group them" in
              report "multiple targets with colon" msg (line_number t) (line_text t);;
              ret false
            else ret is_valid
        | None => ret is_valid
        end
    | _, _ => ret is_valid
    end).

(** [validate_directory_order_only_dependencies] *)
Definition validate_directory_order_only_dependencies (root_dir : string) : M bool :=
  let* targets := get_targets in
  for_each targets true (λ is_valid t,
    for_each (deps t) is_valid (λ is_valid dep,
      if bool_decide (dep ∈ order_only_deps t) then ret is_valid
      else if negb (_looks_like_directory dep root_dir) then ret is_valid
      else
        let msg := "Directory dependency '" +:+ dep +:+ "' on target '" +:+
                   name t +:+ "' must be order-only (list it after '|')." in
        report "directory dependency not order-only" msg
               (line_number t) (line_text t);;
        ret false)).

(** The entries of [TARGET_VALIDATORS]; [validate] dispatches on their
    identity. *)
Inductive target_validator :=
| Validate_orphan_targets
| Validate_target_comments
| Validate_missing_rules
| Validate_multiple_targets_colon.

Definition TARGET_VALIDATORS : list target_validator :=
  [Validate_orphan_targets; Validate_target_comments;
   Validate_missing_rules; Validate_multiple_targets_colon].

Definition TEXT_VALIDATORS : list (M bool) := [validate_spaces].

(** [validate] *)
Definition validate (root_dir : option string) : M bool :=
  let root_dir := match root_dir with None => getcwd fs | Some r => r end in
  let* is_valid :=
    for_each TEXT_VALIDATORS true (λ is_valid validator,
      let* r := validator in ret (r && is_valid)) in
  let* is_valid :=
    for_each TARGET_VALIDATORS is_valid (λ is_valid validator,
      match validator with
      | Validate_target_comments =>
          let* r := validate_target_comments in ret (r && is_valid)
      | Validate_orphan_targets =>
          let* r := validate_orphan_targets in ret (r && is_valid)
      | Validate_missing_rules =>
          let* r := validate_missing_rules root_dir in ret (r && is_valid)
      | Validate_multiple_targets_colon =>
          let* r := validate_multiple_targets_colon in ret (r && is_valid)
      end) in
  let* r := validate_directory_order_only_dependencies root_dir in
  ret (r && is_valid).

End Validators.

(** ** Line provenance: [_compute_target_lines] *)

(** [mapping.setdefault(name, value)] *)
Definition setdefault {V} (name : string) (value : V) (mapping : gmap string V)
    : gmap string V :=
  match mapping !! name with
  | Some _ => mapping
  | None => <[name := value]> mapping
  end.

(** [stripped.rstrip().endswith("\\")] *)
Definition continues (stripped : string) : bool := endswith (rstrip stripped) "\".

(** The guard [":" in line and "=" not in line]. *)
Definition has_colon_no_assignment (line : string) : bool :=
  contains ":" line && negb (contains "=" line).

(** The names a header line declares: [m.group("target").split()], nothing
    when the pattern does not match. *)
Definition header_names (line : string) : list string :=
  match target_re_match line with
  | Some target => split target
  | None => []
  end.

(** The [while i < n] loop.  [i] is the index of the head of [rest]; the
    inner [fix] is the loop that steps over the continuation lines of a
    header. *)
Fixpoint scan_lines (i : Z) (rest : list string) (mapping : gmap string (Z * string))
    {struct rest} : gmap string (Z * string) :=
  match rest with
  | [] => mapping
  | line :: rest' =>
      let stripped := strip line in
      if is_empty stripped then scan_lines (i + 1) rest' mapping
      else if bool_decide (first_char stripped = Some "#"%char) && negb (startswith line "##")
      then scan_lines (i + 1) rest' mapping
      else if startswith line tab then scan_lines (i + 1) rest' mapping
      else if has_colon_no_assignment line then
        let mapping' :=
          foldl (λ m name, setdefault name (i, line) m) mapping (header_names line) in
        (fix skip (stripped : string) (i : Z) (rest : list string) {struct rest} :=
           if continues stripped then
             match rest with
             | [] => mapping'
             | line' :: rest' => skip (strip line') (i + 1) rest'
             end
           else scan_lines (i + 1) rest mapping') stripped i rest'
      else scan_lines (i + 1) rest' mapping
  end.

Definition _compute_target_lines (lines : list string) : gmap string (Z * string) :=
  scan_lines 0 lines ∅.

(** ** Target model: [parse_targets] *)

(** The record a ["target"] token carries.  [target], [docs] and [deps] are
    the keys the code reads unconditionally; [all_targets] and [grouped] are
    read with [dict.get]. *)
Record RuleData := mkRuleData {
  rd_target : string;
  rd_all_targets : option (list string);
  rd_docs : string;
  rd_grouped : option bool;
  rd_deps : list string * list string;
}.

Definition token : Type := string * RuleData.

(** [deps_map[item].add(name)] on a [defaultdict(set)]. *)
Definition defaultdict_add (item name : string) (deps_map : gmap string (gset string))
    : gmap string (gset string) :=
  <[item := default ∅ (deps_map !! item) ∪ {[name]}]> deps_map.

(** The body of [for token_type, data in ast]. *)
Definition parse_token (line_map : gmap string (Z * string))
    (acc : list TargetData * gset string * gmap string (gset string)) (tok : token)
    : list TargetData * gset string * gmap string (gset string) :=
  let '(target_data, deps_targets, deps_map) := acc in
  let '(token_type, data) := tok in
  if negb (String.eqb token_type "target") then acc
  else
    let names := default [rd_target data] (rd_all_targets data) in
    let '(deps_list, order_only_list) := rd_deps data in
    let target_data :=
      foldl (λ td name,
        let provenance := line_map !! name in
        td ++ [ {| name := name;
                   doc := rd_docs data;
                   line_number := fst <$> provenance;
                   line_text := snd <$> provenance;
                   grouped := default false (rd_grouped data);
                   deps := deps_list;
                   order_only_deps := order_only_list |} ])
        target_data names in
    let '(deps_targets, deps_map) :=
      foldl (λ acc dep_arr,
        foldl (λ '(deps_targets, deps_map) item,
          ({[item]} ∪ deps_targets,
           foldl (λ dm name, defaultdict_add item name dm) deps_map names))
          acc dep_arr)
        (deps_targets, deps_map) [deps_list; order_only_list] in
    (target_data, deps_targets, deps_map).

(** [parse_targets]; [lines] is [None] or a list, and an empty list counts
    as absent ([if lines]). *)
Definition parse_targets (ast : list token) (lines : option (list string))
    : list TargetData * gset string * gmap string (gset string) :=
  let line_map :=
    match lines with
    | Some (l :: ls) => _compute_target_lines (l :: ls)
    | _ => ∅
    end in
  foldl (parse_token line_map) ([], ∅, ∅) ast.

(** ** Summary: [summarize_errors] *)

(** [sys.maxsize] (64-bit CPython). *)
Definition sys_maxsize : Z := 2 ^ 63 - 1.

(** [collections.Counter] as an insertion-ordered dictionary:
    [counts[key] += 1]. *)
Fixpoint counter_incr (key : string) (counts : list (string * nat))
    : list (string * nat) :=
  match counts with
  | [] => [(key, 1%nat)]
  | (k, n) :: counts' =>
      if String.eqb k key then (k, S n) :: counts'
      else (k, n) :: counter_incr key counts'
  end.

(** [counts[key]] *)
Fixpoint counter_get (key : string) (counts : list (string * nat)) : nat :=
  match counts with
  | [] => 0%nat
  | (k, n) :: counts' => if String.eqb k key then n else counter_get key counts'
  end.

(** [sorted(xs, key=key)]: a stable sort, ascending in the key. *)
Fixpoint sorted_insert {A} (key : A → Z) (x : A) (sorted : list A) : list A :=
  match sorted with
  | [] => [x]
  | y :: sorted' =>
      if key x <=? key y then x :: y :: sorted'
      else y :: sorted_insert key x sorted'
  end.

Definition sorted_by {A} (key : A → Z) (xs : list A) : list A :=
  foldr (sorted_insert key) [] xs.

(** The loop that fills [first_seen]. *)
Definition first_seen_of (errors : list LintError) : gmap string Z :=
  foldl (λ first_seen err,
    match first_seen !! error_type err, err_line_number err with
    | None, Some n => <[error_type err := n]> first_seen
    | _, _ => first_seen
    end) ∅ errors.

Definition summarize_errors (errors : list LintError) : string :=
  let counts := foldl (λ c err, counter_incr (error_type err) c) [] errors in
  let first_seen := first_seen_of errors in
  let order (key : string) : Z := default sys_maxsize (first_seen !! key) in
  let parts :=
    (λ name, name +:+ ": " +:+ pretty (counter_get name counts))
      <$> sorted_by order (fst <$> counts) in
  join ", " parts.
(** * Properties

    ** Vocabulary of the statements *)

Definition substring (p s : string) : Prop := ∃ pre post, s = pre +:+ p +:+ post.

(** What a run adds: the findings appended to [errors] (when it is a list) and
    their messages printed to the diagnostic stream. *)
Definition emit (new : list LintError) (s : store) : store :=
  {| st_lines := st_lines s; st_targets := st_targets s;
     st_deps := st_deps s; st_deps_map := st_deps_map s;
     st_errors := (λ errs, errs ++ new) <$> st_errors s;
     st_stderr := st_stderr s ++ (message <$> new) |}.

(** The findings of a loop whose body is described by [step] and [out]. *)
Fixpoint loop_out {A S} (step : S → A → S) (out : S → A → list LintError)
    (acc : S) (xs : list A) : list LintError :=
  match xs with
  | [] => []
  | x :: xs' => out acc x ++ loop_out step out (step acc x) xs'
  end.

(** A loop that reports [found x] for each [x] passing [test]. *)
Definition per_item {A} (test : A → bool) (found : A → list LintError)
    (xs : list A) : list (list LintError) :=
  (λ x, if test x then found x else []) <$> xs.

Definition orphan_test (deps : gset string) (t : TargetData) : bool :=
  bool_decide (name t ∉ deps) && negb (contains "[FINAL]" (doc t)).

Definition orphan_finding (t : TargetData) : LintError :=
  {| error_type := "orphan target";
     message := (name t +:+
       ", is orphan - not marked as [FINAL] and no other target depends on it");
     err_line_number := line_number t;
     err_line_text := line_text t |}.

Definition comment_finding (t : TargetData) : LintError :=
  {| error_type := "target without comments";
     message := ("Target without comments: " +:+ name t);
     err_line_number := line_number t;
     err_line_text := line_text t |}.

(** The group [target] of the header pattern on a record's declaring line. *)
Definition rule_head (t : TargetData) : option string :=
  line_text t ≫= target_re_match.

Definition multiple_test (t : TargetData) : bool :=
  negb (grouped t) &&
  match rule_head t with
  | Some target => bool_decide (1 < length (split target))%nat
  | None => false
  end.

Definition multiple_finding (t : TargetData) : LintError :=
  {| error_type := "multiple targets with colon";
     message :=
       ("Multiple targets defined with ':' may run several times in parallel: "
        +:+ default EmptyString (rule_head t) +:+ ". Use '&:' to group them");
     err_line_number := line_number t;
     err_line_text := line_text t |}.

Definition directory_finding (t : TargetData) (dep : string) : LintError :=
  {| error_type := "directory dependency not order-only";
     message := ("Directory dependency '" +:+ dep +:+ "' on target '" +:+
                 name t +:+ "' must be order-only (list it after '|').");
     err_line_number := line_number t;
     err_line_text := line_text t |}.

(** [target_map] of [validate_missing_rules]: the last record of each name. *)
Definition target_map_of (targets : list TargetData) : gmap string TargetData :=
  foldl (λ m t, <[name t := t]> m) ∅ targets.

Definition missing_rule_finding (targets : list TargetData) (dep parent : string)
    : LintError :=
  {| error_type := "missing rule";
     message := ("No rule to make target '" +:+ dep +:+
                 "', needed by '" +:+ parent +:+ "'");
     err_line_number := target_map_of targets !! parent ≫= line_number;
     err_line_text := target_map_of targets !! parent ≫= line_text |}.

Definition trailing_finding (i : Z) (line : string) : LintError :=
  {| error_type := "trailing spaces";
     message := ("Trailing spaces (" +:+ pretty i +:+ "): " +:+ line);
     err_line_number := Some i;
     err_line_text := Some line |}.

Definition space_finding (i : Z) (line : string) : LintError :=
  {| error_type := "space instead of tab";
     message := ("Space instead of tab (" +:+ pretty i +:+ "): " +:+ line);
     err_line_number := Some i;
     err_line_text := Some line |}.

(** The two tests of [validate_spaces] on a line and the line before it. *)
Definition trailing_test (line : string) : bool := negb (String.eqb (rstrip line) line).

Definition space_test (prev_line line : string) : bool :=
  negb (endswith (rstrip prev_line) "\") &&
  (startswith line " " && negb (startswith line tab)).

Definition spaces_found (prev_line : string) (il : Z * string) : list LintError :=
  (if trailing_test il.2 then [trailing_finding il.1 il.2] else []) ++
  (if space_test prev_line il.2 then [space_finding il.1 il.2] else []).

(** The findings of [validate_spaces] on enumerated lines; [prev_line] is the
    line before the first of them. *)
Fixpoint spaces_loop (prev_line : string) (xs : list (Z * string)) : list LintError :=
  match xs with
  | [] => []
  | il :: xs' => spaces_found prev_line il ++ spaces_loop il.2 xs'
  end.

Definition spaces_findings (s : store) : list LintError :=
  spaces_loop EmptyString (enumerate (st_lines s)).

Definition orphan_findings (s : store) : list LintError :=
  concat (per_item (orphan_test (st_deps s)) (λ t, [orphan_finding t]) (st_targets s)).

Definition comment_findings (s : store) : list LintError :=
  concat (per_item (λ t, is_empty (doc t)) (λ t, [comment_finding t]) (st_targets s)).

Definition multiple_findings (s : store) : list LintError :=
  concat (per_item multiple_test (λ t, [multiple_finding t]) (st_targets s)).

Section Findings.

Variable fs : filesystem.

Definition directory_test (root_dir : string) (t : TargetData) (dep : string) : bool :=
  negb (bool_decide (dep ∈ order_only_deps t)) && _looks_like_directory fs dep root_dir.

Definition missing_test (root_dir : string) (targets : list TargetData) (dep : string)
    : bool :=
  bool_decide (dep ∉ dom (target_map_of targets))
  && negb (path_exists fs (_resolve_filesystem_path dep root_dir)).

Definition missing_found (s : store) (dep : string) : list LintError :=
  missing_rule_finding (st_targets s) dep
    <$> sorted_names (default ∅ (st_deps_map s !! dep)).

Definition directory_found (root_dir : string) (t : TargetData) : list LintError :=
  concat (per_item (directory_test root_dir t) (λ dep, [directory_finding t dep]) (deps t)).

Definition missing_findings (root_dir : string) (s : store) : list LintError :=
  concat (per_item (missing_test root_dir (st_targets s)) (missing_found s)
                   (elements (st_deps s))).

Definition directory_findings (root_dir : string) (s : store) : list LintError :=
  concat (directory_found root_dir <$> st_targets s).

(** The root directory [validate] works with. *)
Definition effective_root (root_dir : option string) : string :=
  match root_dir with None => getcwd fs | Some r => r end.

(** Everything one run of [validate] finds, in the order it is reported. *)
Definition all_findings (root_dir : option string) (s : store) : list LintError :=
  spaces_findings s ++ orphan_findings s ++ comment_findings s
  ++ missing_findings (effective_root root_dir) s ++ multiple_findings s
  ++ directory_findings (effective_root root_dir) s.

End Findings.

(** ** The notions the statements are phrased in *)

(** [text] continues with ["&:"] or [":"] right after its prefix [head]. *)
Definition followed_by_separator (head text : string) : Prop :=
  ∃ tail, text = head +:+ "&:" +:+ tail ∨ text = head +:+ ":" +:+ tail.

(** [h] is a prefix of [head] other than [head] itself. *)
Definition proper_prefix (h head : string) : Prop :=
  ∃ more, more ≠ EmptyString ∧ head = h +:+ more.

(** The portion of [text] before its first ["&:"] or [":"]. *)
Definition before_first_separator (text head : string) : Prop :=
  followed_by_separator head text
  ∧ ∀ h, proper_prefix h head → ¬ followed_by_separator h text.

(** What the header pattern captures: the shortest prefix of [text] that is
    not empty and is followed by ["&:"] or [":"], provided no newline comes
    before that separator. *)
Definition is_rule_head (text head : string) : Prop :=
  head ≠ EmptyString
  ∧ ¬ substring (String newline EmptyString) head
  ∧ followed_by_separator head text
  ∧ ∀ h, h ≠ EmptyString → proper_prefix h head → ¬ followed_by_separator h text.

(** A record that is not grouped and whose declaring line has a head, in the
    reading [head_of], listing more than one name. *)
Definition several_names (head_of : string → string → Prop) (t : TargetData) : Prop :=
  grouped t = false
  ∧ ∃ text head, line_text t = Some text ∧ head_of text head
                 ∧ (1 < length (split head))%nat.

(** [validate_multiple_targets_colon] reports exactly the records with
    [several_names], one finding each with the record's provenance, in the
    order of the records. *)
Definition multiple_targets_property (head_of : string → string → Prop) (s : store)
    : Prop :=
  ∃ per_target : list (list LintError),
    st_errors (validate_multiple_targets_colon s).2
      = (λ errs, errs ++ concat per_target) <$> st_errors s
    ∧ Forall2 (λ t found,
        (several_names head_of t → found = [multiple_finding t])
        ∧ (¬ several_names head_of t → found = []))
        (st_targets s) per_target.

(** The Make wildcard and variable metacharacters. *)
Definition metacharacters : list string := ["$"; "*"; "?"; "["; "]"; "%"; "("; ")"].

Definition plain_name (dep : string) : Prop :=
  ∀ m, m ∈ metacharacters → ¬ substring m dep.

(** The target records of a store that are named [d]. *)
Definition declared_in (targets : list TargetData) (d : string) : Prop :=
  ∃ t, t ∈ targets ∧ name t = d.

(** The requesters of [d]: [deps_map[d]], nothing when [d] is no key. *)
Definition requesters (deps_map : gmap string (gset string)) (d : string) : gset string :=
  default ∅ (deps_map !! d).

(** The store of a run that is handed the list [errs] as [errors]. *)
Definition with_errors (errs : list LintError) (s : store) : store :=
  {| st_lines := st_lines s; st_targets := st_targets s;
     st_deps := st_deps s; st_deps_map := st_deps_map s;
     st_errors := Some errs; st_stderr := st_stderr s |}.

(** What a validator appends to an [errors] list that starts empty. *)
Definition reported {A} (m : M A) (s : store) : list LintError :=
  default [] (st_errors (m (with_errors [] s)).2).

Section ClaimNotions.

Variable fs : filesystem.

(** [dep] is a normal prerequisite of [t] that the claim counts as a
    directory: not order-only for [t], free of metacharacters, and resolving
    to an existing directory. *)
Definition directory_dependency (root_dir : string) (t : TargetData) (dep : string)
    : Prop :=
  (dep ∉ order_only_deps t)
  ∧ plain_name dep
  ∧ path_isdir fs (_resolve_filesystem_path dep root_dir) = true.

(** [validate_directory_order_only_dependencies] reports exactly the
    prerequisites satisfying [cond], one finding per occurrence with the
    owning record's provenance, in the order of records and prerequisites. *)
Definition directory_property (cond : TargetData → string → Prop)
    (root_dir : string) (s : store) : Prop :=
  ∃ per_dep : list (list (list LintError)),
    st_errors (validate_directory_order_only_dependencies fs root_dir s).2
      = (λ errs, errs ++ concat ((λ founds, concat founds) <$> per_dep)) <$> st_errors s
    ∧ Forall2 (λ t founds,
        Forall2 (λ dep found,
          (cond t dep → found = [directory_finding t dep])
          ∧ (¬ cond t dep → found = []))
          (deps t) founds)
        (st_targets s) per_dep.

(** [d] has neither a rule nor a file under [root_dir]. *)
Definition is_missing (root_dir : string) (targets : list TargetData) (d : string)
    : Prop :=
  ¬ declared_in targets d
  ∧ path_exists fs (_resolve_filesystem_path d root_dir) = false.

(** Every prerequisite the missing-rule check fires on has a requester. *)
Definition requesters_known (root_dir : option string) (s : store) : Prop :=
  ∀ d, d ∈ st_deps s → is_missing (effective_root fs root_dir) (st_targets s) d →
       ∃ p, p ∈ requesters (st_deps_map s) d.

(** The verdict of [validate] on an [errors] list that starts empty is [True]
    exactly when that list is still empty afterwards. *)
Definition verdict_matches_errors (root_dir : option string) (s : store) : Prop :=
  (validate fs root_dir (with_errors [] s)).1 = true
  ↔ st_errors (validate fs root_dir (with_errors [] s)).2 = Some [].

End ClaimNotions.

(** The dependency-index invariant: every key of [deps_map] is a member of
    [deps], and every value set has a member. *)
Definition dependency_index_invariant (deps : gset string)
    (deps_map : gmap string (gset string)) : Prop :=
  ∀ k v, deps_map !! k = Some v → k ∈ deps ∧ ∃ p, p ∈ v.

(** A rule header candidate: not blank, not a comment (a [#] line that does
    not begin with [##]), not a recipe line, with a colon and without an
    assignment. *)
Definition header_candidate (line : string) : bool :=
  negb (is_empty (strip line))
  && negb (bool_decide (first_char (strip line) = Some "#"%char) && negb (startswith line "##"))
  && negb (startswith line tab)
  && has_colon_no_assignment line.

(** Line [i] is a continuation line, stepped over by the scan: the line
    before it ends in a backslash once trimmed, and is a scanned rule header
    or a continuation line itself. *)
Fixpoint continuation_line (lines : list string) (i : nat) : bool :=
  match i with
  | O => false
  | S j =>
      match lines !! j with
      | Some before =>
          continues (strip before)
          && (continuation_line lines j || header_candidate before)
      | None => false
      end
  end.

(** Line [i] is a rule header that declares [name]. *)
Definition declares (lines : list string) (i : nat) (name : string) : Prop :=
  ∃ line head,
    lines !! i = Some line
    ∧ continuation_line lines i = false
    ∧ header_candidate line = true
    ∧ is_rule_head line head
    ∧ name ∈ split head.

(** The inner loop of the scan on its own: the index and the lines the scan
    resumes with, [None] when the file ends inside the continuation. *)
Fixpoint skip_continuation (stripped : string) (i : Z) (rest : list string)
    : option (Z * list string) :=
  if continues stripped then
    match rest with
    | [] => None
    | line' :: rest' => skip_continuation (strip line') (i + 1) rest'
    end
  else Some (i + 1, rest).

(** From line [k] on, [result] is the first declaration of [name]. *)
Definition located_from (lines : list string) (name : string) (k : nat)
    (result : option (Z * string)) : Prop :=
  match result with
  | Some (n, text) =>
      ∃ i, (k ≤ i)%nat ∧ n = Z.of_nat i ∧ lines !! i = Some text
           ∧ declares lines i name
           ∧ ∀ j, (k ≤ j < i)%nat → ¬ declares lines j name
  | None => ∀ i, (k ≤ i)%nat → ¬ declares lines i name
  end.

(** The number of findings of category [c]. *)
Definition count_of (c : string) (errors : list LintError) : nat :=
  length (filter (λ e, error_type e = c) errors).

(** The line number of the first finding of category [c] that has one. *)
Fixpoint first_line (c : string) (errors : list LintError) : option Z :=
  match errors with
  | [] => None
  | e :: errors' =>
      if decide (error_type e = c) then
        match err_line_number e with
        | Some n => Some n
        | None => first_line c errors'
        end
      else first_line c errors'
  end.

(** Category [a] is met in [errors] before any finding of category [b]. *)
Definition appears_before (errors : list LintError) (a b : string) : Prop :=
  ∃ i e, errors !! i = Some e ∧ error_type e = a
         ∧ ∀ j e', (j ≤ i)%nat → errors !! j = Some e' → error_type e' ≠ b.

(** The order of the summary: by first line number, categories without a
    line number last, and first appearance breaking ties. *)
Definition summary_before (errors : list LintError) (a b : string) : Prop :=
  match first_line a errors, first_line b errors with
  | Some x, Some y => x < y ∨ (x = y ∧ appears_before errors a b)
  | Some _, None => True
  | None, Some _ => False
  | None, None => appears_before errors a b
  end.

(** The summary lists every category once, each with its count, in the
    order [summary_before]. *)
Definition summary_property (errors : list LintError) : Prop :=
  ∃ cats : list string,
    summarize_errors errors
      = join ", " ((λ c, c +:+ ": " +:+ pretty (count_of c errors)) <$> cats)
    ∧ NoDup cats
    ∧ (∀ c, c ∈ cats ↔ ∃ e, e ∈ errors ∧ error_type e = c)
    ∧ ∀ (i j : nat) a b, (i < j)%nat → cats !! i = Some a → cats !! j = Some b →
                         summary_before errors a b.

(** Every line number is below [sys.maxsize], as every index of a list is. *)
Definition line_numbers_below_maxsize (errors : list LintError) : Prop :=
  ∀ e n, e ∈ errors → err_line_number e = Some n → n < sys_maxsize.

(** [a] stands before [b] in [l]. *)
Definition before {A} (l : list A) (a b : A) : Prop :=
  ∃ i j : nat, (i < j)%nat ∧ l !! i = Some a ∧ l !! j = Some b.

(** The [Counter] of [summarize_errors]. *)
Definition counts_of (errors : list LintError) : list (string * nat) :=
  foldl (λ c err, counter_incr (error_type err) c) [] errors.

(** The order a stable sort by [key] puts a list [l] in. *)
Definition stable_order {A} (key : A → Z) (l : list A) (a b : A) : Prop :=
  key a < key b ∨ (key a = key b ∧ before l a b).

(** ** Concrete inputs

    The stores, file systems and findings at which the statements below are
    instantiated. *)

(** The record behind the counterexample of C7: its line starts with a
    colon. *)
Definition colon_first_record : TargetData :=
  {| name := "b"; doc := "built"; line_number := Some 0;
     line_text := Some ":a b: c"; grouped := false;
     deps := ["c"]; order_only_deps := [] |}.

Definition colon_first_store : store :=
  {| st_lines := [":a b: c"]; st_targets := [colon_first_record];
     st_deps := {["c"]}; st_deps_map := {["c" := {["b"]}]};
     st_errors := Some []; st_stderr := [] |}.

(** A file system whose only directory is [/r]. *)
Definition one_directory_fs : filesystem :=
  {| path_exists := λ p, bool_decide (p = "/r" ∨ p = "/r/");
     path_isdir := λ p, bool_decide (p = "/r" ∨ p = "/r/");
     getcwd := "/r" |}.

Definition empty_prerequisite_store : store :=
  {| st_lines := ["all:"];
     st_targets := [ {| name := "all"; doc := "[FINAL] everything";
                        line_number := Some 0; line_text := Some "all:";
                        grouped := false; deps := [EmptyString];
                        order_only_deps := [] |} ];
     st_deps := {[EmptyString]}; st_deps_map := {[EmptyString := {["all"]}]};
     st_errors := Some []; st_stderr := [] |}.

(** A file system with nothing on it. *)
Definition nothing_on_disk : filesystem :=
  {| path_exists := λ _, false; path_isdir := λ _, false; getcwd := "/" |}.

(** The model of the Makefile [all: foo]. *)
Definition all_foo_store : store :=
  {| st_lines := ["all: foo"];
     st_targets := [ {| name := "all"; doc := EmptyString;
                        line_number := Some 0; line_text := Some "all: foo";
                        grouped := false; deps := ["foo"]; order_only_deps := [] |} ];
     st_deps := {["foo"]}; st_deps_map := {["foo" := {["all"]}]};
     st_errors := Some []; st_stderr := [] |}.

(** A dependency set naming a prerequisite that [deps_map] does not know. *)
Definition unrequested_store : store :=
  {| st_lines := []; st_targets := [];
     st_deps := {["x"]}; st_deps_map := ∅;
     st_errors := Some []; st_stderr := [] |}.

(** The scenario of the specification: three ["space instead of tab"]
    findings and one ["missing rule"] finding. *)
Definition scenario_errors : list LintError :=
  [ {| error_type := "space instead of tab"; message := "Space instead of tab (1):  a";
       err_line_number := Some 1; err_line_text := Some " a" |};
    {| error_type := "space instead of tab"; message := "Space instead of tab (2):  b";
       err_line_number := Some 2; err_line_text := Some " b" |};
    {| error_type := "space instead of tab"; message := "Space instead of tab (3):  c";
       err_line_number := Some 3; err_line_text := Some " c" |};
    {| error_type := "missing rule"; message := "No rule to make target 'x', needed by 'y'";
       err_line_number := Some 5; err_line_text := Some "y: x" |} ].

(** A finding without a line number, then one whose line number is past
    [sys.maxsize]. *)
Definition huge_line_errors : list LintError :=
  [ {| error_type := "b"; message := "no line";
       err_line_number := None; err_line_text := None |};
    {| error_type := "a"; message := "huge line";
       err_line_number := Some (2 ^ 63); err_line_text := None |} ].

(** ** The entry point: [main] *)

(** [s.split(sep)] for a separator of one character: the pieces between the
    occurrences of [sep], empty ones included.  [piece] is the piece being
    read. *)
Fixpoint split_on_from (sep : ascii) (piece : string) (s : string) : list string :=
  match s with
  | EmptyString => [piece]
  | String c s' =>
      if Ascii.eqb c sep then piece :: split_on_from sep EmptyString s'
      else split_on_from sep (piece +:+ String c EmptyString) s'
  end.

Definition split_on (sep : ascii) (s : string) : list string :=
  split_on_from sep EmptyString s.

(** Every character of [s] passes [p]. *)
Fixpoint all_chars (p : ascii → bool) (s : string) : bool :=
  match s with
  | EmptyString => true
  | String c s' => p c && all_chars p s'
  end.

(** [s.rstrip(chars)] for the characters accepted by [p]. *)
Fixpoint rstrip_with (p : ascii → bool) (s : string) : string :=
  match s with
  | EmptyString => EmptyString
  | String c s' =>
      let r := rstrip_with p s' in
      if is_empty r && p c then EmptyString else String c r
  end.

(** [p[:p.rfind("/") + 1]]: [p] up to and including its last slash. *)
Fixpoint upto_last_slash (p : string) : string :=
  match p with
  | EmptyString => EmptyString
  | String c p' =>
      let r := upto_last_slash p' in
      if negb (is_empty r) then String c r
      else if Ascii.eqb c "/" then String c EmptyString
      else EmptyString
  end.

(** [os.path.dirname] (POSIX). *)
Definition dirname (p : string) : string :=
  let head := upto_last_slash p in
  if negb (is_empty head) && negb (all_chars (λ c, Ascii.eqb c "/") head)
  then rstrip_with (λ c, Ascii.eqb c "/") head
  else head.

(** What [main] takes from outside the linter: the text of a file ([None]
    when it cannot be opened or read), the parser of [make_profiler.parser]
    on that text ([None] when it raises) and [os.path.abspath]. *)
Record environment := mkEnvironment {
  read_text : string → option string;
  parse : string → option (list token);
  abspath : string → string;
}.

(** [main], for the file name [parse_args] returns.  The result is the exit
    status and the diagnostic stream, [None] when reading or parsing
    raises. *)
Definition main (fs : filesystem) (env : environment) (in_filename : string)
    (stderr : list string) : option (Z * list string) :=
  match read_text env in_filename with
  | None => None
  | Some text =>
      let makefile_lines := split_on newline text in
      match parse env text with
      | None => None
      | Some ast =>
          let '(targets, deps, deps_map) := parse_targets ast (Some makefile_lines) in
          let root_dir :=
            let d := dirname (abspath env in_filename) in
            if is_empty d then "." else d in
          let '(valid, s) :=
            validate fs (Some root_dir)
              {| st_lines := makefile_lines; st_targets := targets; st_deps := deps;
                 st_deps_map := deps_map; st_errors := Some []; st_stderr := stderr |} in
          if negb valid then
            let summary := summarize_errors (default [] (st_errors s)) in
            Some (1, st_stderr s ++ ["Makefile validation failed: " +:+ summary])
          else Some (0, st_stderr s)
      end
  end.

(** The root directory [main] lints under. *)
Definition main_root (env : environment) (in_filename : string) : string :=
  if is_empty (dirname (abspath env in_filename)) then "."
  else dirname (abspath env in_filename).

(** ** Further notions *)

(** The store of a run that is handed [errors] (a list, or [None]) and
    starts with [stderr] already printed. *)
Definition with_outputs (errors : option (list LintError)) (stderr : list string)
    (s : store) : store :=
  {| st_lines := st_lines s; st_targets := st_targets s;
     st_deps := st_deps s; st_deps_map := st_deps_map s;
     st_errors := errors; st_stderr := stderr |}.

(** The line number of a finding, [-1] when it has none. *)
Definition line_of (e : LintError) : Z := default (-1) (err_line_number e).

(** A store without findings: no trailing whitespace, no leading space, and
    one documented final target. *)
Definition clean_store : store :=
  {| st_lines := ["all: ## [FINAL] everything"; tab +:+ "@echo done"];
     st_targets := [ {| name := "all"; doc := "[FINAL] everything";
                        line_number := Some 0;
                        line_text := Some "all: ## [FINAL] everything";
                        grouped := false; deps := []; order_only_deps := [] |} ];
     st_deps := ∅; st_deps_map := ∅;
     st_errors := Some []; st_stderr := [] |}.

(** Two lines, the second indented and with a trailing space. *)
Definition indented_store : store :=
  {| st_lines := ["a:"; "  x "]; st_targets := [];
     st_deps := ∅; st_deps_map := ∅; st_errors := None; st_stderr := [] |}.

(** A token tagged ["target"]. *)
Definition is_target_token (tok : token) : bool := String.eqb tok.1 "target".

(** The names a target token declares: its [all_targets] list when present,
    its [target] otherwise. *)
Definition token_names (tok : token) : list string :=
  default [rd_target tok.2] (rd_all_targets tok.2).

(** The prerequisites of a token, normal ones first. *)
Definition token_prerequisites (tok : token) : list string :=
  (rd_deps tok.2).1 ++ (rd_deps tok.2).2.

(** The record [parse_targets] builds for one name of a token. *)
Definition token_record (line_map : gmap string (Z * string)) (tok : token)
    (n : string) : TargetData :=
  {| name := n; doc := rd_docs tok.2;
     line_number := fst <$> line_map !! n;
     line_text := snd <$> line_map !! n;
     grouped := default false (rd_grouped tok.2);
     deps := (rd_deps tok.2).1;
     order_only_deps := (rd_deps tok.2).2 |}.

(** The line map [parse_targets] works with. *)
Definition line_map_of (lines : option (list string)) : gmap string (Z * string) :=
  match lines with
  | Some (l :: ls) => _compute_target_lines (l :: ls)
  | _ => ∅
  end.

(** The dependency inner loops of [parse_targets] for one prerequisite list. *)
Definition add_items (names : list string)
    (acc : gset string * gmap string (gset string)) (dep_arr : list string)
    : gset string * gmap string (gset string) :=
  foldl (λ '(deps_targets, deps_map) item,
    ({[item]} ∪ deps_targets,
     foldl (λ dm name, defaultdict_add item name dm) deps_map names))
    acc dep_arr.

(** The records a token contributes: one per name for a target token, none
    for any other token. *)
Definition token_records (line_map : gmap string (Z * string)) (tok : token)
    : list TargetData :=
  if is_target_token tok then token_record line_map tok <$> token_names tok else [].

(** [run_validation] of the test suite, from the parser's tokens on:
    [parse_targets] on the tokens and the lines, then [validate] with an
    empty [errors] list; the verdict and the findings. *)
Definition run_validation (fs : filesystem) (ast : list token) (lines : list string)
    (root_dir : option string) : bool * list LintError :=
  let '(targets, deps, dep_map) := parse_targets ast (Some lines) in
  let '(valid, s) :=
    validate fs root_dir
      {| st_lines := lines; st_targets := targets; st_deps := deps;
         st_deps_map := dep_map; st_errors := Some []; st_stderr := [] |} in
  (valid, default [] (st_errors s)).

(** The tokens of the Makefile [all: foo]. *)
Definition all_foo_tokens : list token :=
  [("target", {| rd_target := "all"; rd_all_targets := None; rd_docs := EmptyString;
                 rd_grouped := None; rd_deps := (["foo"], []) |})].

(** A name as [str.split] yields them: not empty and free of whitespace. *)
Definition is_word (w : string) : Prop :=
  w ≠ EmptyString ∧ all_chars (λ c, negb (is_space c)) w = true.

(** The text of the Makefile [all: foo], with its final newline. *)
Definition all_foo_text : string := "all: foo" +:+ String newline EmptyString.

(** An environment holding that Makefile under the name [Makefile] in the
    directory [/w], with a parser that yields [all_foo_tokens]. *)
Definition all_foo_environment : environment :=
  {| read_text := λ f, if String.eqb f "Makefile" then Some all_foo_text else None;
     parse := λ _, Some all_foo_tokens;
     abspath := λ f, "/w/" +:+ f |}.
(** ** Strings, the store monad and the validators' runs *)

Lemma sapp_nil_l (s : string) : EmptyString +:+ s = s.
Proof. reflexivity. Qed.

Lemma sapp_cons (c : ascii) (s t : string) : String c s +:+ t = String c (s +:+ t).
Proof. reflexivity. Qed.

Lemma sapp_nil_r (s : string) : s +:+ EmptyString = s.
Proof. induction s as [|c s IH]; [done|]. by rewrite sapp_cons, IH. Qed.

Lemma sapp_assoc (s t u : string) : (s +:+ t) +:+ u = s +:+ t +:+ u.
Proof. induction s as [|c s IH]; [done|]. by rewrite !sapp_cons, IH. Qed.

Lemma startswith_spec (s p : string) :
  startswith s p = true ↔ ∃ t, s = p +:+ t.
Proof.
  revert s. induction p as [|a p IH]; intros s; simpl.
  - split; [intros _; by exists s | done].
  - destruct s as [|b s].
    + split; [done | intros [t Ht]; discriminate].
    + destruct (Ascii.eqb_spec a b) as [->|Hne].
      * rewrite IH. split; intros [t Ht]; exists t.
        -- by rewrite sapp_cons, Ht.
        -- rewrite sapp_cons in Ht. by injection Ht.
      * split; [done | intros [t Ht]]. rewrite sapp_cons in Ht. congruence.
Qed.

Lemma contains_spec (p s : string) : contains p s = true ↔ substring p s.
Proof.
  induction s as [|c s IH]; simpl.
  - rewrite orb_false_r, startswith_spec. split.
    + intros [t Ht]. by exists EmptyString, t.
    + intros ([|??] & post & H); [by exists post | discriminate].
  - rewrite orb_true_iff, IH, startswith_spec. split.
    + intros [[t Ht]|(pre & post & ->)].
      * by exists EmptyString, t.
      * by exists (String c pre), post.
    + intros ([|c' pre] & post & H).
      * left. by exists post.
      * right. rewrite sapp_cons in H. injection H as -> ->. by exists pre, post.
Qed.

Lemma emit_nil s : emit [] s = s.
Proof.
  destruct s as [l t d dm e err]. unfold emit; simpl. f_equal.
  - destruct e; simpl; [by rewrite app_nil_r|done].
  - by rewrite app_nil_r.
Qed.

Lemma emit_emit new1 new2 s : emit new2 (emit new1 s) = emit (new1 ++ new2) s.
Proof.
  unfold emit; simpl. f_equal.
  - destruct (st_errors s); simpl; [by rewrite app_assoc|done].
  - by rewrite fmap_app, app_assoc.
Qed.

Lemma report_run ty msg ln lt s :
  report ty msg ln lt s = (tt, emit [_create_error ty msg ln lt] s).
Proof.
  destruct s as [l t d dm [errs|] err]; reflexivity.
Qed.

Lemma for_each_run {A S} (body : S → A → M S) (step : S → A → S)
    (out : S → A → list LintError) (xs : list A) :
  (∀ acc x s, x ∈ xs → body acc x s = (step acc x, emit (out acc x) s)) →
  ∀ acc s, for_each xs acc body s = (foldl step acc xs, emit (loop_out step out acc xs) s).
Proof.
  induction xs as [|x xs IH]; intros Hbody acc s; simpl.
  - by rewrite emit_nil.
  - unfold bind. rewrite Hbody by left. rewrite IH by (intros; apply Hbody; by right).
    by rewrite emit_emit.
Qed.

Lemma simple_loop_run {A} (test : A → bool) (found : A → list LintError)
    (body : bool → A → M bool) (xs : list A) :
  (∀ acc x s, body acc x s = if test x then (false, emit (found x) s) else (acc, s)) →
  ∀ acc s, for_each xs acc body s
           = (acc && forallb (λ x, negb (test x)) xs,
              emit (concat (per_item test found xs)) s).
Proof.
  intros Hbody. induction xs as [|x xs IH]; intros acc s; simpl.
  - by rewrite emit_nil, andb_true_r.
  - unfold bind. rewrite Hbody. destruct (test x); simpl.
    + rewrite IH, emit_emit. by rewrite andb_false_r.
    + by rewrite IH.
Qed.

Lemma per_item_Forall2 {A} (test : A → bool) (found : A → list LintError)
    (P : A → Prop) (xs : list A) :
  (∀ x, test x = true ↔ P x) →
  Forall2 (λ x fs, (P x → fs = found x) ∧ (¬ P x → fs = []))
          xs (per_item test found xs).
Proof.
  intros Htest. unfold per_item. apply Forall2_fmap_r, Forall_Forall2_diag, Forall_forall.
  intros x _. unfold compose. destruct (test x) eqn:E.
  - split; [done|]. intros HP. destruct HP. by apply Htest.
  - split; [|done]. intros HP. apply Htest in HP. congruence.
Qed.

Lemma report_list_run {A} (mk : A → LintError) (body : unit → A → M unit) (xs : list A) :
  (∀ u x s, body u x s = (tt, emit [mk x] s)) →
  ∀ u s, for_each xs u body s = (tt, emit (mk <$> xs) s).
Proof.
  intros Hbody. induction xs as [|x xs IH]; intros [] s; simpl.
  - by rewrite emit_nil.
  - unfold bind. rewrite Hbody, IH, emit_emit. done.
Qed.

Lemma loop_out_const {A S} (step : S → A → S) (out : A → list LintError) acc xs :
  loop_out step (λ _, out) acc xs = concat (out <$> xs).
Proof. revert acc. induction xs as [|x xs IH]; intros acc; simpl; [done|]. by rewrite IH. Qed.

Lemma foldl_andb_forallb {A} (p : A → bool) (acc : bool) (xs : list A) :
  foldl (λ acc x, acc && p x) acc xs = acc && forallb p xs.
Proof.
  revert acc. induction xs as [|x xs IH]; intros acc; simpl.
  - by rewrite andb_true_r.
  - by rewrite IH, andb_assoc.
Qed.

Section ValidatorRuns.

Variable fs : filesystem.

Lemma validate_orphan_targets_run s :
  validate_orphan_targets s
  = (forallb (λ t, negb (orphan_test (st_deps s) t)) (st_targets s),
     emit (orphan_findings s) s).
Proof.
  unfold validate_orphan_targets, bind, get_targets, get_deps.
  rewrite (simple_loop_run (orphan_test (st_deps s)) (λ t, [orphan_finding t])); [done|].
  intros acc t s'. unfold orphan_test, bind. destruct (_ && _); [|done].
  by rewrite report_run.
Qed.

Lemma validate_target_comments_run s :
  validate_target_comments s
  = (forallb (λ t, negb (is_empty (doc t))) (st_targets s),
     emit (comment_findings s) s).
Proof.
  unfold validate_target_comments, bind, get_targets.
  rewrite (simple_loop_run (λ t, is_empty (doc t)) (λ t, [comment_finding t])); [done|].
  intros acc t s'. unfold bind. destruct (is_empty _); [|done].
  by rewrite report_run.
Qed.

Lemma validate_multiple_targets_colon_run s :
  validate_multiple_targets_colon s
  = (forallb (λ t, negb (multiple_test t)) (st_targets s),
     emit (multiple_findings s) s).
Proof.
  unfold validate_multiple_targets_colon, bind, get_targets.
  rewrite (simple_loop_run multiple_test (λ t, [multiple_finding t])); [done|].
  intros acc t s'. unfold multiple_test, multiple_finding, rule_head, bind.
  destruct (grouped t); simpl; [done|].
  destruct (line_text t) as [text|]; simpl; [|done].
  destruct (target_re_match text) as [target|]; simpl; [|done].
  destruct (bool_decide _); [|done]. by rewrite report_run.
Qed.

Lemma validate_directory_order_only_dependencies_run root_dir s :
  validate_directory_order_only_dependencies fs root_dir s
  = (forallb (λ t, forallb (λ dep, negb (directory_test fs root_dir t dep)) (deps t))
             (st_targets s),
     emit (directory_findings fs root_dir s) s).
Proof.
  unfold validate_directory_order_only_dependencies, bind, get_targets.
  rewrite (for_each_run _
    (λ acc t, acc && forallb (λ dep, negb (directory_test fs root_dir t dep)) (deps t))
    (λ _, directory_found fs root_dir)).
  - by rewrite loop_out_const, foldl_andb_forallb.
  - intros acc t s' _.
    apply (simple_loop_run (directory_test fs root_dir t) (λ dep, [directory_finding t dep])).
    intros acc' dep s''. unfold directory_test, bind.
    destruct (bool_decide _); simpl; [done|].
    destruct (_looks_like_directory _ _ _); simpl; [|done].
    by rewrite report_run.
Qed.

Lemma validate_missing_rules_run root_dir s :
  validate_missing_rules fs root_dir s
  = (forallb (λ dep, negb (missing_test fs root_dir (st_targets s) dep))
             (elements (st_deps s)),
     emit (missing_findings fs root_dir s) s).
Proof.
  unfold validate_missing_rules, bind, get_targets, get_deps, get_deps_map.
  rewrite (simple_loop_run (missing_test fs root_dir (st_targets s)) (missing_found s));
    [done|].
  intros acc dep s'. unfold missing_test, target_map_of. destruct (_ && _); [|done].
  unfold bind.
  rewrite (report_list_run (missing_rule_finding (st_targets s) dep)); [done|].
  intros u parent s''. by rewrite report_run.
Qed.

Lemma spaces_loop_run (body : bool * string → Z * string → M (bool * string)) xs :
  (∀ iv prev i line s,
     body (iv, prev) (i, line) s
     = ((iv && bool_decide (spaces_found prev (i, line) = []), line),
        emit (spaces_found prev (i, line)) s)) →
  ∀ iv prev s,
    for_each xs (iv, prev) body s
    = ((iv && bool_decide (spaces_loop prev xs = []), foldl (λ _ il, il.2) prev xs),
       emit (spaces_loop prev xs) s).
Proof.
  intros Hbody. induction xs as [|[i line] xs IH]; intros iv prev s; simpl.
  - by rewrite emit_nil, andb_true_r.
  - unfold bind. rewrite Hbody, IH, emit_emit. f_equal. f_equal.
    rewrite <- andb_assoc. f_equal.
    destruct (spaces_found prev (i, line)) as [|e es]; [done|].
    rewrite !(bool_decide_eq_false_2 (_ :: _ = [])) by done. done.
Qed.

Lemma validate_spaces_run s :
  validate_spaces s
  = (bool_decide (spaces_findings s = []), emit (spaces_findings s) s).
Proof.
  unfold validate_spaces, bind, get_lines.
  rewrite spaces_loop_run; [done|].
  intros iv prev i line s'. unfold spaces_found, trailing_test, space_test, bind.
  cbn [fst snd].
  destruct (negb (rstrip line =? line)%string),
    (endswith (rstrip prev) "\"),
    (startswith line " " && negb (startswith line tab));
    cbn [negb andb app]; unfold ret; repeat (rewrite report_run; cbn beta iota);
    rewrite ?emit_emit, ?emit_nil, ?andb_false_r, ?andb_true_r; done.
Qed.

Lemma validate_run root_dir s :
  validate fs root_dir s
  = (forallb (λ t, forallb (λ dep, negb (directory_test fs (effective_root fs root_dir) t dep))
                           (deps t)) (st_targets s)
     && (forallb (λ t, negb (multiple_test t)) (st_targets s)
     && (forallb (λ dep, negb (missing_test fs (effective_root fs root_dir) (st_targets s) dep))
                 (elements (st_deps s))
     && (forallb (λ t, negb (is_empty (doc t))) (st_targets s)
     && (forallb (λ t, negb (orphan_test (st_deps s) t)) (st_targets s)
     && (bool_decide (spaces_findings s = []) && true))))),
     emit (all_findings fs root_dir s) s).
Proof.
  unfold validate, all_findings. fold (effective_root fs root_dir).
  unfold TEXT_VALIDATORS, TARGET_VALIDATORS. cbn [for_each]. unfold bind, ret.
  rewrite validate_spaces_run, validate_orphan_targets_run,
    validate_target_comments_run, validate_missing_rules_run,
    validate_multiple_targets_colon_run,
    validate_directory_order_only_dependencies_run.
  by rewrite !emit_emit, <- !app_assoc.
Qed.

End ValidatorRuns.
Lemma sapp_eq_nil (s t : string) : s +:+ t = EmptyString → s = EmptyString ∧ t = EmptyString.
Proof. destruct s; [done | discriminate]. Qed.

Lemma separator_check_spec (rest : string) :
  startswith rest "&:" || startswith rest ":" = true ↔ followed_by_separator EmptyString rest.
Proof.
  rewrite orb_true_iff, !startswith_spec. unfold followed_by_separator. split.
  - intros [[t ->]|[t ->]]; exists t; [by left | by right].
  - intros [t [->| ->]]; [left | right]; by exists t.
Qed.

Lemma followed_by_separator_cons c head text :
  followed_by_separator (String c head) (String c text) ↔ followed_by_separator head text.
Proof.
  unfold followed_by_separator. split; intros [tail H]; exists tail.
  - rewrite !sapp_cons in H. destruct H as [H|H]; injection H as ->; auto.
  - rewrite !sapp_cons. destruct H as [-> | ->]; auto.
Qed.

Lemma not_followed_by_separator_nil head : ¬ followed_by_separator head EmptyString.
Proof.
  intros [tail [H|H]]; symmetry in H; apply sapp_eq_nil in H as [_ H]; discriminate.
Qed.

Lemma followed_by_separator_app pre head text :
  followed_by_separator (pre +:+ head) (pre +:+ text) ↔ followed_by_separator head text.
Proof.
  induction pre as [|c pre IH]; [done|].
  by rewrite !sapp_cons, followed_by_separator_cons.
Qed.

Lemma substring_newline_cons c s :
  substring (String newline EmptyString) (String c s)
  ↔ c = newline ∨ substring (String newline EmptyString) s.
Proof.
  rewrite <- !contains_spec. cbn [contains startswith]. rewrite orb_true_iff.
  destruct (Ascii.eqb_spec newline c) as [Heq|Hne].
  - split; intros _; by left.
  - split; intros [H|H]; [done | by right | by destruct Hne | by right].
Qed.

(** The scan of the lazy [.+?]: from [rest], after [head] was consumed. *)
Lemma target_re_from_spec (rest head h : string) :
  target_re_from head rest = Some h ↔
  ∃ mid, h = head +:+ mid
         ∧ ¬ substring (String newline EmptyString) mid
         ∧ followed_by_separator mid rest
         ∧ ∀ m, proper_prefix m mid → ¬ followed_by_separator m rest.
Proof.
  revert head. induction rest as [|c rest IH]; intros head.
  - simpl. split; [done|]. intros (mid & _ & _ & H & _).
    by apply not_followed_by_separator_nil in H.
  - cbn [target_re_from].
    destruct (startswith (String c rest) "&:" || startswith (String c rest) ":") eqn:Hsep.
    + apply separator_check_spec in Hsep. split.
      * intros [= <-]. exists EmptyString. rewrite sapp_nil_r. split_and!; try done.
        -- rewrite <- contains_spec. done.
        -- intros m (more & Hmore & Hm). symmetry in Hm.
           apply sapp_eq_nil in Hm as [_ ?]. done.
      * intros (mid & -> & _ & _ & Hmin). destruct mid as [|c' mid].
        -- by rewrite sapp_nil_r.
        -- destruct (Hmin EmptyString); [|done]. by exists (String c' mid).
    + assert (¬ followed_by_separator EmptyString (String c rest)) as Hno.
      { rewrite <- separator_check_spec. by rewrite Hsep. }
      destruct (Ascii.eqb_spec c newline) as [->|Hnl].
      * split; [done|]. intros (mid & _ & Hnonl & Hfol & _).
        destruct mid as [|c' mid]; [done|].
        assert (c' = newline) as ->.
        { destruct Hfol as [tail [H|H]]; rewrite sapp_cons in H; by injection H. }
        destruct Hnonl. apply substring_newline_cons. by left.
      * rewrite IH. split.
        -- intros (mid & -> & Hnonl & Hfol & Hmin). exists (String c mid).
           split_and!.
           ++ by rewrite sapp_assoc.
           ++ rewrite substring_newline_cons. tauto.
           ++ by apply followed_by_separator_cons.
           ++ intros [|c' m] (more & Hmore & Hm); [done|].
              rewrite sapp_cons in Hm. injection Hm as <- ->.
              rewrite followed_by_separator_cons. apply Hmin. by exists more.
        -- intros (mid & -> & Hnonl & Hfol & Hmin).
           destruct mid as [|c' mid]; [done|].
           assert (c' = c) as ->.
           { destruct Hfol as [tail [H|H]]; rewrite sapp_cons in H; by injection H. }
           exists mid. split_and!.
           ++ by rewrite sapp_assoc.
           ++ rewrite substring_newline_cons in Hnonl. tauto.
           ++ by apply followed_by_separator_cons in Hfol.
           ++ intros m (more & Hmore & ->).
              rewrite <- (followed_by_separator_cons c). apply Hmin. by exists more.
Qed.

Lemma target_re_match_spec (text head : string) :
  target_re_match text = Some head ↔ is_rule_head text head.
Proof.
  unfold target_re_match, is_rule_head. destruct text as [|c text].
  - split; [done|]. intros (_ & _ & H & _). by apply not_followed_by_separator_nil in H.
  - destruct (Ascii.eqb_spec c newline) as [->|Hnl].
    + split; [done|]. intros (Hne & Hnonl & Hfol & _).
      destruct head as [|c' head]; [done|].
      assert (c' = newline) as ->.
      { destruct Hfol as [tail [H|H]]; rewrite sapp_cons in H; by injection H. }
      destruct Hnonl. apply substring_newline_cons. by left.
    + rewrite target_re_from_spec. split.
      * intros (mid & -> & Hnonl & Hfol & Hmin). split_and!.
        -- done.
        -- rewrite sapp_cons, sapp_nil_l, substring_newline_cons. tauto.
        -- rewrite sapp_cons, sapp_nil_l. by apply followed_by_separator_cons.
        -- intros [|c' h] Hh (more & Hmore & Hm); [done|].
           rewrite !sapp_cons, sapp_nil_l in Hm. injection Hm as <- ->.
           rewrite followed_by_separator_cons. apply Hmin. by exists more.
      * intros (Hne & Hnonl & Hfol & Hmin). destruct head as [|c' head]; [done|].
        assert (c' = c) as ->.
        { destruct Hfol as [tail [H|H]]; rewrite sapp_cons in H; by injection H. }
        exists head. split_and!.
        -- done.
        -- rewrite substring_newline_cons in Hnonl. tauto.
        -- by apply followed_by_separator_cons in Hfol.
        -- intros m (more & Hmore & ->).
           rewrite <- (followed_by_separator_cons c). apply Hmin; [done|]. by exists more.
Qed.

Lemma per_item_singletons {A} (test : A → bool) (mk : A → LintError)
    (P : A → Prop) (xs : list A) :
  (∀ x, test x = true ↔ P x) →
  Forall2 (λ x found, (P x → found = [mk x]) ∧ (¬ P x → found = []))
          xs (per_item test (λ x, [mk x]) xs).
Proof. intros H. by apply (per_item_Forall2 test (λ x, [mk x]) P). Qed.

Lemma orphan_test_spec deps t :
  orphan_test deps t = true ↔ (name t ∉ deps) ∧ ¬ substring "[FINAL]" (doc t).
Proof.
  unfold orphan_test.
  rewrite andb_true_iff, bool_decide_eq_true, negb_true_iff, <- contains_spec.
  by rewrite not_true_iff_false.
Qed.

Lemma multiple_test_spec t :
  multiple_test t = true ↔ several_names is_rule_head t.
Proof.
  unfold multiple_test, several_names, rule_head.
  rewrite andb_true_iff, negb_true_iff. split.
  - intros [Hg H]. split; [done|].
    destruct (line_text t) as [text|]; [|done]. simpl in H.
    destruct (target_re_match text) as [head|] eqn:Hm; [|done].
    exists text, head. split_and!; [done| |].
    + by apply target_re_match_spec.
    + by apply bool_decide_eq_true in H.
  - intros [Hg (text & head & -> & Hhead & Hlen)]. split; [done|].
    apply target_re_match_spec in Hhead. simpl. rewrite Hhead.
    by apply bool_decide_eq_true.
Qed.

(** C6. Each target record contributes to the findings of
    [validate_orphan_targets] on its own: exactly one ["orphan target"]
    finding carrying the record's own line number and line text when its
    name is not in the dependency set and its documentation does not
    contain ["[FINAL]"], and nothing when the name is a prerequisite or the
    documentation contains ["[FINAL]"].  The findings are appended to the
    [errors] list in the order of the records. *)
Theorem orphan_targets_reported (s : store) :
  ∃ per_target : list (list LintError),
    st_errors (validate_orphan_targets s).2
      = (λ errs, errs ++ concat per_target) <$> st_errors s
    ∧ Forall2 (λ t found,
        ((name t ∉ st_deps s) ∧ ¬ substring "[FINAL]" (doc t) →
           found = [orphan_finding t])
        ∧ ((name t ∈ st_deps s) ∨ substring "[FINAL]" (doc t) → found = []))
        (st_targets s) per_target.
Proof.
  exists (per_item (orphan_test (st_deps s)) (λ t, [orphan_finding t]) (st_targets s)).
  rewrite validate_orphan_targets_run. split; [done|].
  eapply Forall2_impl; [apply per_item_singletons, orphan_test_spec|].
  intros t found [Hyes Hno]. split; [done|].
  intros H. apply Hno. tauto.
Qed.

(** C7 (amended). [validate_multiple_targets_colon] reports a record exactly
    when it is not flagged grouped, has a declaring line text, and the head
    the header pattern captures on that line (the shortest prefix that is
    not empty, holds no newline and is followed by ["&:"] or [":"]) splits
    into more than one name; a grouped record is never reported. *)
Theorem multiple_targets_reported (s : store) :
  multiple_targets_property is_rule_head s.
Proof.
  exists (per_item multiple_test (λ t, [multiple_finding t]) (st_targets s)).
  rewrite validate_multiple_targets_colon_run. split; [done|].
  apply per_item_singletons, multiple_test_spec.
Qed.

(** C7 as stated fails: on the line [":a b: c"] the portion before the first
    colon is empty and lists no name, yet the record is reported (the pattern
    takes [":a b"] as the head). *)
Lemma multiple_targets_claim_fails :
  ¬ multiple_targets_property before_first_separator colon_first_store.
Proof.
  intros (per_target & Herr & Hall).
  assert (¬ several_names before_first_separator colon_first_record) as Hnot.
  { intros (_ & text & head & [= <-] & [Hfol Hmin] & Hlen).
    destruct head as [|c head]; [simpl in Hlen; lia|].
    apply (Hmin EmptyString); [by exists (String c head)|].
    exists "a b: c". by right. }
  simpl in Hall. apply Forall2_cons_inv_l in Hall as (found & rest & [_ Hno] & Hrest & ->).
  apply Forall2_nil_inv_l in Hrest as ->.
  rewrite (Hno Hnot) in Herr. vm_compute in Herr. discriminate.
Qed.

Section DirectoryClaim.

Variable fs : filesystem.

Lemma metacharacter_check_spec (path : string) :
  existsb (λ char, contains char path) ["$"; "*"; "?"; "["; "]"; "%"; "("; ")"] = false
  ↔ plain_name path.
Proof.
  unfold plain_name. fold metacharacters. split.
  - intros H m Hm Hsub. apply contains_spec in Hsub.
    apply not_true_iff_false in H. apply H, existsb_exists.
    exists m. split; [by apply list_elem_of_In | done].
  - intros H. apply not_true_iff_false. intros (m & Hm & Hc)%existsb_exists.
    apply (H m); [by apply list_elem_of_In | by apply contains_spec].
Qed.

Lemma is_empty_spec (s : string) : is_empty s = true ↔ s = EmptyString.
Proof. by destruct s. Qed.

Lemma directory_test_spec root_dir t dep :
  directory_test fs root_dir t dep = true
  ↔ dep ≠ EmptyString ∧ directory_dependency fs root_dir t dep.
Proof.
  unfold directory_test, directory_dependency, _looks_like_directory.
  rewrite andb_true_iff, negb_true_iff, bool_decide_eq_false.
  rewrite <- metacharacter_check_spec.
  destruct dep as [|c dep]; cbn [is_empty orb].
  - split; [intros [_ ?]; done | intros [? _]; done].
  - destruct (existsb _ _); cbn [orb].
    + split; [intros [_ ?]; done | intros (_ & _ & ? & _); done].
    + split; [intros [? ?]; done | intros (_ & ? & _ & ?); done].
Qed.

(** C8 (amended). For every target record and every occurrence of a normal
    prerequisite of it, [validate_directory_order_only_dependencies] reports
    one finding with the record's provenance exactly when the prerequisite is
    not the empty string, is not among the record's order-only
    prerequisites, contains no metacharacter and resolves against the root
    to an existing directory; a prerequisite that is listed as order-only is
    never reported. *)
Theorem directory_dependencies_reported (root_dir : string) (s : store) :
  directory_property fs
    (λ t dep, dep ≠ EmptyString ∧ directory_dependency fs root_dir t dep) root_dir s.
Proof.
  exists ((λ t, per_item (directory_test fs root_dir t) (λ dep, [directory_finding t dep])
                         (deps t)) <$> st_targets s).
  rewrite validate_directory_order_only_dependencies_run. split.
  - unfold directory_findings, directory_found. by rewrite <- list_fmap_compose.
  - apply Forall2_fmap_r, Forall_Forall2_diag, Forall_forall. intros t _.
    apply per_item_singletons. intros dep. apply directory_test_spec.
Qed.

End DirectoryClaim.

(** C8 as stated fails: an empty prerequisite name is not order-only, holds
    no metacharacter and resolves to the root directory itself, yet
    [_looks_like_directory] rejects it and nothing is reported. *)
Lemma directory_claim_fails :
  ¬ directory_property one_directory_fs
      (directory_dependency one_directory_fs "/r") "/r" empty_prerequisite_store.
Proof.
  intros (per_dep & Herr & Hall). simpl in Hall.
  apply Forall2_cons_inv_l in Hall as (founds & rest & Hdeps & Hrest & ->).
  apply Forall2_nil_inv_l in Hrest as ->.
  apply Forall2_cons_inv_l in Hdeps as (found & rest & [Hyes _] & Hrest & ->).
  apply Forall2_nil_inv_l in Hrest as ->.
  rewrite Hyes in Herr; [vm_compute in Herr; discriminate|].
  split_and!.
  - apply not_elem_of_nil.
  - intros m Hm (pre & post & H). symmetry in H.
    apply sapp_eq_nil in H as [_ H]. apply sapp_eq_nil in H as [-> _].
    unfold metacharacters in Hm. rewrite !elem_of_cons, elem_of_nil in Hm.
    intuition discriminate.
  - done.
Qed.

Lemma target_map_fold_lookup (targets : list TargetData) (m : gmap string TargetData)
    (p : string) (t : TargetData) :
  foldl (λ m t, <[name t := t]> m) m targets !! p = Some t →
  (t ∈ targets ∧ name t = p) ∨ m !! p = Some t.
Proof.
  revert m. induction targets as [|t' targets IH]; intros m; simpl; [auto|].
  intros H. apply IH in H as [[Hin Hn]|H].
  - left. split; [by right | done].
  - destruct (decide (name t' = p)) as [<-|Hne].
    + rewrite lookup_insert_eq in H. injection H as ->. left. split; [by left | done].
    + rewrite lookup_insert_ne in H by done. by right.
Qed.

Lemma target_map_fold_is_Some (targets : list TargetData) (m : gmap string TargetData)
    (p : string) :
  is_Some (foldl (λ m t, <[name t := t]> m) m targets !! p)
  ↔ declared_in targets p ∨ is_Some (m !! p).
Proof.
  revert m. induction targets as [|t' targets IH]; intros m; simpl.
  - split; [auto|]. intros [(t & Ht & _)|H]; [by apply elem_of_nil in Ht | done].
  - rewrite IH. unfold declared_in. split.
    + intros [(t & Ht & Hn)|H].
      * left. exists t. split; [by right | done].
      * destruct (decide (name t' = p)) as [<-|Hne].
        -- left. exists t'. split; [by left | done].
        -- rewrite lookup_insert_ne in H by done. by right.
    + intros [(t & Ht & Hn)|H].
      * apply elem_of_cons in Ht as [->|Ht].
        -- right. rewrite Hn, lookup_insert_eq. eauto.
        -- left. eauto.
      * right. destruct (decide (name t' = p)) as [<-|Hne].
        -- rewrite lookup_insert_eq. eauto.
        -- by rewrite lookup_insert_ne.
Qed.

Lemma target_map_of_declared (targets : list TargetData) (p : string) :
  p ∈ dom (target_map_of targets) ↔ declared_in targets p.
Proof.
  unfold target_map_of. rewrite elem_of_dom, target_map_fold_is_Some, lookup_empty.
  split; [intros [?|[? ?]]; done | auto].
Qed.

Lemma target_map_of_lookup (targets : list TargetData) (p : string) (t : TargetData) :
  target_map_of targets !! p = Some t → t ∈ targets ∧ name t = p.
Proof.
  intros H. apply target_map_fold_lookup in H as [?|H]; [done|].
  by rewrite lookup_empty in H.
Qed.

Lemma sorted_names_NoDup (names : gset string) : NoDup (sorted_names names).
Proof.
  unfold sorted_names. rewrite merge_sort_Permutation. apply NoDup_elements.
Qed.

Lemma elem_of_sorted_names (names : gset string) (p : string) :
  p ∈ sorted_names names ↔ p ∈ names.
Proof.
  unfold sorted_names. by rewrite merge_sort_Permutation, elem_of_elements.
Qed.

Section MissingRulesClaim.

Variable fs : filesystem.

Lemma missing_test_spec root_dir targets d :
  missing_test fs root_dir targets d = true ↔ is_missing fs root_dir targets d.
Proof.
  unfold missing_test, is_missing.
  by rewrite andb_true_iff, bool_decide_eq_true, negb_true_iff, target_map_of_declared.
Qed.

(** C2. [validate_missing_rules] visits every name of the dependency set
    once.  For a name that no record declares and that does not exist on
    disk under the root it appends one ["missing rule"] finding per member of
    [deps_map[d]], each requester once; for a name that is declared or
    exists on disk it appends nothing.  A finding for requester [p] carries
    the line number and line text of a record named [p] (none when no record
    has that name). *)
Theorem missing_rules_reported (root_dir : string) (s : store) :
  ∃ per_dep : list (list LintError),
    st_errors (validate_missing_rules fs root_dir s).2
      = (λ errs, errs ++ concat per_dep) <$> st_errors s
    ∧ Forall2 (λ d found,
        (is_missing fs root_dir (st_targets s) d →
           ∃ parents,
             NoDup parents
             ∧ (∀ p, p ∈ parents ↔ p ∈ requesters (st_deps_map s) d)
             ∧ found = missing_rule_finding (st_targets s) d <$> parents)
        ∧ (declared_in (st_targets s) d
           ∨ path_exists fs (_resolve_filesystem_path d root_dir) = true →
           found = []))
        (elements (st_deps s)) per_dep
    ∧ ∀ d p,
        error_type (missing_rule_finding (st_targets s) d p) = "missing rule"
        ∧ (declared_in (st_targets s) p →
             ∃ t, t ∈ st_targets s ∧ name t = p
                  ∧ err_line_number (missing_rule_finding (st_targets s) d p)
                    = line_number t
                  ∧ err_line_text (missing_rule_finding (st_targets s) d p)
                    = line_text t)
        ∧ (¬ declared_in (st_targets s) p →
             err_line_number (missing_rule_finding (st_targets s) d p) = None
             ∧ err_line_text (missing_rule_finding (st_targets s) d p) = None).
Proof.
  exists (per_item (missing_test fs root_dir (st_targets s)) (missing_found s)
                   (elements (st_deps s))).
  rewrite validate_missing_rules_run. split_and!; [done| |].
  - eapply Forall2_impl;
      [apply (per_item_Forall2 _ _ (is_missing fs root_dir (st_targets s))),
             missing_test_spec|].
    intros d found [Hyes Hno]. split.
    + intros Hmiss. exists (sorted_names (requesters (st_deps_map s) d)).
      split_and!; [apply sorted_names_NoDup | apply elem_of_sorted_names | by apply Hyes].
    + intros H. apply Hno. unfold is_missing. intros [Hnd Hne].
      destruct H as [?|H]; [done|]. congruence.
  - intros d p. split_and!; [done| |].
    + intros Hdecl. apply target_map_of_declared, elem_of_dom in Hdecl as [t Ht].
      exists t. destruct (target_map_of_lookup _ _ _ Ht) as [Hin Hn].
      split_and!; [done|done| |]; simpl; by rewrite Ht.
    + intros Hnd. rewrite <- target_map_of_declared, not_elem_of_dom in Hnd.
      simpl. by rewrite Hnd.
Qed.

End MissingRulesClaim.

(** The line [validate_spaces] holds in [prev_line] when it reaches index [i]
    of [first :: ...]: the line before it, and [prev_line] at the start. *)
Lemma spaces_loop_elem (e : LintError) (lines : list string) (k : Z) (prev : string) :
  e ∈ spaces_loop prev (enumerate_from k lines) ↔
  ∃ (i : nat) (before line : string),
    lines !! i = Some line
    ∧ (prev :: lines) !! i = Some before
    ∧ ((trailing_test line = true ∧ e = trailing_finding (k + Z.of_nat i) line)
       ∨ (space_test before line = true ∧ e = space_finding (k + Z.of_nat i) line)).
Proof.
  revert k prev. induction lines as [|l lines IH]; intros k prev.
  - simpl. split; [by intros ?%elem_of_nil | by intros (i & ? & ? & ? & _)].
  - cbn [enumerate_from spaces_loop]. rewrite elem_of_app, IH. split.
    + intros [He|(i & before & line & Hl & Hb & H)].
      * exists 0%nat, prev, l. split_and!; [done|done|].
        unfold spaces_found in He. cbn [fst snd] in He. rewrite Z.add_0_r.
        apply elem_of_app in He as [He|He].
        -- left. destruct (trailing_test l); [|by apply elem_of_nil in He].
           apply list_elem_of_singleton in He. done.
        -- right. destruct (space_test prev l); [|by apply elem_of_nil in He].
           apply list_elem_of_singleton in He. done.
      * exists (S i), before, line. split_and!; [done|done|].
        by replace (k + Z.of_nat (S i)) with (k + 1 + Z.of_nat i) by lia.
    + intros ([|i] & before & line & Hl & Hb & H).
      * left. injection Hl as ->. injection Hb as ->. rewrite Z.add_0_r in H.
        unfold spaces_found. cbn [fst snd]. apply elem_of_app.
        destruct H as [[-> ->]|[-> ->]]; [left | right]; by apply list_elem_of_singleton.
      * right. exists i, before, line. split_and!; [done|done|].
        by replace (k + 1 + Z.of_nat i) with (k + Z.of_nat (S i)) by lia.
Qed.

(** C5. When a line's trimmed form ends in a backslash, the line right after
    it gets no ["space instead of tab"] finding, whatever it starts with, and
    it still gets the ["trailing spaces"] finding when stripping its trailing
    whitespace changes it. *)
Theorem continuation_line_findings (s : store) (i : nat) (prev line : string) :
  st_lines s !! i = Some prev →
  st_lines s !! S i = Some line →
  endswith (rstrip prev) "\" = true →
  ∃ found,
    st_errors (validate_spaces s).2 = (λ errs, errs ++ found) <$> st_errors s
    ∧ (∀ e, e ∈ found → error_type e = "space instead of tab" →
            err_line_number e ≠ Some (Z.of_nat (S i)))
    ∧ (rstrip line ≠ line → trailing_finding (Z.of_nat (S i)) line ∈ found).
Proof.
  intros Hprev Hline Hcont. exists (spaces_findings s).
  rewrite validate_spaces_run. split_and!; [done| |].
  - intros e He Hty Hnum. unfold spaces_findings, enumerate in He.
    apply spaces_loop_elem in He as (j & before & l & Hl & Hb & [[_ ->]|[Htest ->]]);
      [done|].
    simpl in Hnum. assert (j = S i) as -> by (injection Hnum; lia).
    simpl in Hb. rewrite Hprev in Hb. injection Hb as <-.
    unfold space_test in Htest. by rewrite Hcont in Htest.
  - intros Hne. unfold spaces_findings, enumerate. apply spaces_loop_elem.
    exists (S i), prev, line. split_and!; [done|done|]. left. split; [|done].
    unfold trailing_test. by rewrite negb_true_iff, String.eqb_neq.
Qed.

(** C5 at the lines ["all: foo \"] and ["    baz  "]. *)
Lemma continuation_line_findings_witness :
  ∃ found,
    st_errors (validate_spaces
      {| st_lines := ["all: foo \"; "    baz  "]; st_targets := [];
         st_deps := ∅; st_deps_map := ∅; st_errors := Some []; st_stderr := [] |}).2
      = Some ([] ++ found)
    ∧ (∀ e, e ∈ found → error_type e = "space instead of tab" →
            err_line_number e ≠ Some 1)
    ∧ (rstrip "    baz  " ≠ "    baz  " → trailing_finding 1 "    baz  " ∈ found).
Proof.
  apply (continuation_line_findings
    {| st_lines := ["all: foo \"; "    baz  "]; st_targets := [];
       st_deps := ∅; st_deps_map := ∅; st_errors := Some []; st_stderr := [] |}
    0 "all: foo \" "    baz  "); reflexivity.
Defined.

Lemma per_item_nil_iff {A} (test : A → bool) (found : A → list LintError) (xs : list A) :
  (∀ x, x ∈ xs → test x = true → found x ≠ []) →
  forallb (λ x, negb (test x)) xs = true ↔ concat (per_item test found xs) = [].
Proof.
  induction xs as [|x xs IH]; intros Hne; simpl; [done|].
  rewrite andb_true_iff, app_nil, IH by (intros; apply Hne; [by right | done]).
  destruct (test x) eqn:E; simpl; [|tauto].
  split; [intros [? _]; done | intros [H _]]. by apply Hne in H; [|left|].
Qed.

Lemma reported_run {A} (m : M A) (s : store) (a : store → A)
    (found : store → list LintError) :
  (∀ s', m s' = (a s', emit (found s') s')) →
  reported m s = found (with_errors [] s).
Proof. intros H. unfold reported. by rewrite H. Qed.

Section ValidateClaims.

Variable fs : filesystem.

Lemma directory_verdict_iff root_dir (s : store) :
  forallb (λ t, forallb (λ dep, negb (directory_test fs root_dir t dep)) (deps t))
          (st_targets s) = true
  ↔ directory_findings fs root_dir s = [].
Proof.
  unfold directory_findings. induction (st_targets s) as [|t ts IH]; simpl; [done|].
  rewrite andb_true_iff, app_nil, IH. unfold directory_found at 1.
  by rewrite per_item_nil_iff.
Qed.

Lemma missing_verdict_nil root_dir (s : store) :
  forallb (λ dep, negb (missing_test fs root_dir (st_targets s) dep))
          (elements (st_deps s)) = true →
  missing_findings fs root_dir s = [].
Proof.
  unfold missing_findings. induction (elements (st_deps s)) as [|d ds IH]; simpl; [done|].
  rewrite andb_true_iff. intros [Hd Hds]. rewrite IH by done.
  apply negb_true_iff in Hd. by rewrite Hd.
Qed.

Lemma missing_verdict_iff root_dir (s : store) :
  requesters_known fs root_dir s →
  forallb (λ dep, negb (missing_test fs (effective_root fs root_dir) (st_targets s) dep))
          (elements (st_deps s)) = true
  ↔ missing_findings fs (effective_root fs root_dir) s = [].
Proof.
  intros Hknown. apply per_item_nil_iff. intros d Hd Htest.
  apply elem_of_elements in Hd. apply missing_test_spec in Htest.
  destruct (Hknown d Hd Htest) as [p Hp]. unfold missing_found.
  apply elem_of_sorted_names in Hp. intros Hnil.
  apply fmap_nil_inv in Hnil. unfold requesters in Hp. rewrite Hnil in Hp.
  by apply elem_of_nil in Hp.
Qed.

Lemma orphan_verdict_iff (s : store) :
  forallb (λ t, negb (orphan_test (st_deps s) t)) (st_targets s) = true
  ↔ orphan_findings s = [].
Proof. by apply per_item_nil_iff. Qed.

Lemma comment_verdict_iff (s : store) :
  forallb (λ t, negb (is_empty (doc t))) (st_targets s) = true ↔ comment_findings s = [].
Proof. by apply (per_item_nil_iff (λ t, is_empty (doc t))). Qed.

Lemma multiple_verdict_iff (s : store) :
  forallb (λ t, negb (multiple_test t)) (st_targets s) = true ↔ multiple_findings s = [].
Proof. by apply per_item_nil_iff. Qed.

Lemma verdict_true_no_findings root_dir (s : store) :
  (validate fs root_dir s).1 = true → all_findings fs root_dir s = [].
Proof.
  rewrite validate_run. cbn [fst]. rewrite !andb_true_iff, bool_decide_eq_true.
  intros (Hd & Hm & Hmi & Hc & Ho & Hsp & _). unfold all_findings.
  rewrite Hsp. apply directory_verdict_iff in Hd. rewrite Hd.
  apply missing_verdict_nil in Hmi. rewrite Hmi.
  apply multiple_verdict_iff in Hm. apply comment_verdict_iff in Hc.
  apply orphan_verdict_iff in Ho. by rewrite Hm, Hc, Ho.
Qed.

Lemma no_findings_verdict_true root_dir (s : store) :
  requesters_known fs root_dir s →
  all_findings fs root_dir s = [] → (validate fs root_dir s).1 = true.
Proof.
  intros Hknown. rewrite validate_run. cbn [fst]. unfold all_findings.
  rewrite !app_nil. intros (Hsp & Ho & Hc & Hmi & Hm & Hd).
  rewrite !andb_true_iff, bool_decide_eq_true. split_and!; try done.
  - by apply directory_verdict_iff.
  - by apply multiple_verdict_iff.
  - by apply missing_verdict_iff.
  - by apply comment_verdict_iff.
  - by apply orphan_verdict_iff.
Qed.

(** C1 (amended). On an [errors] list that starts empty, [validate] appends
    the findings of every check, in the order spaces, orphan targets, target
    comments, missing rules, multiple targets, directory dependencies, each
    as if that check ran alone on the same input; and provided every
    prerequisite for which the missing-rule check fires has at least one
    requester in [deps_map], it returns [True] exactly when the list is
    still empty afterwards. *)
Theorem validate_runs_every_check (root_dir : option string) (s : store) :
  requesters_known fs root_dir s →
  reported (validate fs root_dir) s
    = reported validate_spaces s
      ++ reported validate_orphan_targets s
      ++ reported validate_target_comments s
      ++ reported (validate_missing_rules fs (effective_root fs root_dir)) s
      ++ reported validate_multiple_targets_colon s
      ++ reported (validate_directory_order_only_dependencies fs
                     (effective_root fs root_dir)) s
  ∧ verdict_matches_errors fs root_dir s.
Proof.
  intros Hknown. split.
  - rewrite (reported_run _ _ _ _ (validate_run fs root_dir)).
    rewrite (reported_run _ _ _ _ validate_spaces_run).
    rewrite (reported_run _ _ _ _ validate_orphan_targets_run).
    rewrite (reported_run _ _ _ _ validate_target_comments_run).
    rewrite (reported_run _ _ _ _ (validate_missing_rules_run fs _)).
    rewrite (reported_run _ _ _ _ validate_multiple_targets_colon_run).
    rewrite (reported_run _ _ _ _ (validate_directory_order_only_dependencies_run fs _)).
    done.
  - unfold verdict_matches_errors. split.
    + intros Hv. apply verdict_true_no_findings in Hv.
      rewrite validate_run. simpl. by rewrite Hv.
    + intros He. apply no_findings_verdict_true; [done|].
      rewrite validate_run in He. simpl in He. by injection He.
Qed.

(** C10. A run of [validate] leaves the raw lines, the target records, the
    dependency set and the reverse-dependency map as they were, and the
    [errors] list it was handed keeps its contents as a prefix: findings are
    only appended. *)
Theorem validate_frame (root_dir : option string) (s : store) :
  st_lines (validate fs root_dir s).2 = st_lines s
  ∧ st_targets (validate fs root_dir s).2 = st_targets s
  ∧ st_deps (validate fs root_dir s).2 = st_deps s
  ∧ st_deps_map (validate fs root_dir s).2 = st_deps_map s
  ∧ ∃ new, st_errors (validate fs root_dir s).2 = (λ errs, errs ++ new) <$> st_errors s.
Proof.
  rewrite validate_run. split_and!; try done. by exists (all_findings fs root_dir s).
Qed.

End ValidateClaims.

(** C1 at the Makefile [all: foo]. *)
Lemma validate_runs_every_check_witness :
  requesters_known nothing_on_disk None all_foo_store
  ∧ reported (validate nothing_on_disk None) all_foo_store
    = reported validate_spaces all_foo_store
      ++ reported validate_orphan_targets all_foo_store
      ++ reported validate_target_comments all_foo_store
      ++ reported (validate_missing_rules nothing_on_disk "/") all_foo_store
      ++ reported validate_multiple_targets_colon all_foo_store
      ++ reported (validate_directory_order_only_dependencies nothing_on_disk "/")
           all_foo_store
  ∧ verdict_matches_errors nothing_on_disk None all_foo_store.
Proof.
  assert (requesters_known nothing_on_disk None all_foo_store) as Hknown.
  { intros d Hd _. change (d ∈ ({["foo"]} : gset string)) in Hd.
    apply elem_of_singleton in Hd as ->. exists "all".
    change ("all" ∈ default ∅ (({["foo" := {["all"]}]} : gmap string (gset string)) !! "foo")).
    rewrite lookup_singleton_eq. by apply elem_of_singleton. }
  split; [exact Hknown|].
  exact (validate_runs_every_check nothing_on_disk None all_foo_store Hknown).
Defined.

(** C1 as stated fails: with a prerequisite that has no requester in
    [deps_map], the missing-rule check turns the verdict to [False] without
    appending a finding. *)
Lemma validate_verdict_claim_fails :
  ¬ verdict_matches_errors nothing_on_disk None unrequested_store.
Proof.
  intros [_ H]. assert (false = true) as Hft; [|discriminate].
  etrans; [|apply H]; by vm_compute.
Qed.

Lemma defaultdict_add_invariant deps deps_map item name :
  dependency_index_invariant deps deps_map → item ∈ deps →
  dependency_index_invariant deps (defaultdict_add item name deps_map).
Proof.
  intros Hinv Hitem k v. unfold defaultdict_add.
  destruct (decide (item = k)) as [<-|Hne].
  - rewrite lookup_insert_eq. intros [= <-]. split; [done|].
    exists name. apply elem_of_union_r. by apply elem_of_singleton.
  - rewrite lookup_insert_ne by done. apply Hinv.
Qed.

Lemma add_names_invariant deps deps_map item names :
  dependency_index_invariant deps deps_map → item ∈ deps →
  dependency_index_invariant deps
    (foldl (λ dm name, defaultdict_add item name dm) deps_map names).
Proof.
  revert deps_map. induction names as [|name names IH]; intros deps_map Hinv Hitem; simpl.
  - done.
  - apply IH; [|done]. by apply defaultdict_add_invariant.
Qed.

Lemma dependency_index_invariant_mono deps deps_map item :
  dependency_index_invariant deps deps_map →
  dependency_index_invariant ({[item]} ∪ deps) deps_map.
Proof.
  intros Hinv k v Hk. destruct (Hinv k v Hk) as [Hin Hv].
  split; [by apply elem_of_union_r | done].
Qed.

Lemma add_items_invariant (names dep_arr : list string) (acc : gset string * gmap string (gset string)) :
  dependency_index_invariant acc.1 acc.2 →
  dependency_index_invariant
    (foldl (λ '(deps_targets, deps_map) item,
       ({[item]} ∪ deps_targets,
        foldl (λ dm name, defaultdict_add item name dm) deps_map names))
       acc dep_arr).1
    (foldl (λ '(deps_targets, deps_map) item,
       ({[item]} ∪ deps_targets,
        foldl (λ dm name, defaultdict_add item name dm) deps_map names))
       acc dep_arr).2.
Proof.
  revert acc. induction dep_arr as [|item dep_arr IH]; intros [deps deps_map] Hinv; simpl.
  - done.
  - apply IH. simpl. apply add_names_invariant.
    + by apply dependency_index_invariant_mono.
    + apply elem_of_union_l. by apply elem_of_singleton.
Qed.

Lemma parse_token_invariant line_map acc tok :
  dependency_index_invariant acc.1.2 acc.2 →
  dependency_index_invariant (parse_token line_map acc tok).1.2
                             (parse_token line_map acc tok).2.
Proof.
  destruct acc as [[target_data deps] deps_map], tok as [token_type data].
  unfold parse_token. intros Hinv.
  destruct (negb (token_type =? "target")%string); [done|].
  destruct (rd_deps data) as [deps_list order_only_list]. cbn [foldl].
  pose proof (add_items_invariant (default [rd_target data] (rd_all_targets data))
                deps_list (deps, deps_map) Hinv) as H1.
  pose proof (add_items_invariant (default [rd_target data] (rd_all_targets data))
                order_only_list _ H1) as H2.
  destruct (foldl _ (foldl _ (deps, deps_map) deps_list) order_only_list)
    as [deps' deps_map'] eqn:E.
  done.
Qed.

(** C9. Whatever the token stream and the raw lines, the dependency set and
    the reverse-dependency map that [parse_targets] returns satisfy the
    dependency-index invariant: every key of [deps_map] is in [deps], and
    every value set of [deps_map] has a member. *)
Theorem parse_targets_dependency_index (ast : list token) (lines : option (list string)) :
  dependency_index_invariant (parse_targets ast lines).1.2 (parse_targets ast lines).2.
Proof.
  unfold parse_targets.
  generalize (match lines with
              | Some (l :: ls) => _compute_target_lines (l :: ls)
              | _ => ∅
              end).
  intros line_map.
  assert (dependency_index_invariant
            (([] : list TargetData, ∅ : gset string, ∅ : gmap string (gset string)).1.2)
            ([] : list TargetData, ∅ : gset string, ∅ : gmap string (gset string)).2)
    as Hinit.
  { intros k v Hk. simpl in Hk. by rewrite lookup_empty in Hk. }
  revert Hinit.
  generalize ([] : list TargetData, ∅ : gset string, ∅ : gmap string (gset string)).
  induction ast as [|tok ast IH]; intros acc Hacc; simpl; [done|].
  apply IH. by apply parse_token_invariant.
Qed.

Lemma scan_lines_cons (i : Z) (line : string) (rest : list string)
    (mapping : gmap string (Z * string)) :
  scan_lines i (line :: rest) mapping
  = if header_candidate line then
      let mapping' :=
        foldl (λ m name, setdefault name (i, line) m) mapping (header_names line) in
      match skip_continuation (strip line) i rest with
      | Some (i', rest') => scan_lines i' rest' mapping'
      | None => mapping'
      end
    else scan_lines (i + 1) rest mapping.
Proof.
  cbn [scan_lines]. unfold header_candidate.
  destruct (is_empty (strip line)); [done|].
  destruct (bool_decide (first_char (strip line) = Some "#"%char) && negb (startswith line "##"));
    [done|].
  destruct (startswith line tab); [done|].
  destruct (has_colon_no_assignment line); [|done].
  cbn [negb andb].
  generalize (foldl (λ m name, setdefault name (i, line) m) mapping (header_names line)).
  intros mapping'. generalize (strip line). revert i.
  induction rest as [|line' rest IH]; intros i stripped; cbn [skip_continuation].
  - by destruct (continues stripped).
  - destruct (continues stripped); [apply IH | done].
Qed.

Lemma setdefault_fold_lookup {V} (names : list string) (value : V)
    (mapping : gmap string V) (name : string) :
  foldl (λ m n, setdefault n value m) mapping names !! name
  = match mapping !! name with
    | Some v => Some v
    | None => if decide (name ∈ names) then Some value else None
    end.
Proof.
  revert mapping. induction names as [|n names IH]; intros mapping; simpl.
  - by destruct (mapping !! name).
  - rewrite IH. unfold setdefault. destruct (decide (n = name)) as [->|Hne].
    + destruct (mapping !! name) as [v|] eqn:E.
      * by rewrite E.
      * rewrite lookup_insert_eq. by rewrite decide_True by left.
    + assert ((match mapping !! n with
               | Some _ => mapping
               | None => <[n:=value]> mapping
               end) !! name = mapping !! name) as ->.
      { destruct (mapping !! n); [done|]. by rewrite lookup_insert_ne. }
      destruct (mapping !! name); [done|].
      destruct (decide (name ∈ names)) as [Hin|Hnin].
      * by rewrite decide_True by (by right).
      * rewrite decide_False; [done|]. intros [?|?]%elem_of_cons; congruence.
Qed.

Lemma header_names_spec (line name : string) :
  name ∈ header_names line ↔ ∃ head, is_rule_head line head ∧ name ∈ split head.
Proof.
  unfold header_names. split.
  - destruct (target_re_match line) as [head|] eqn:E; [|by intros ?%elem_of_nil].
    intros Hin. exists head. split; [by apply target_re_match_spec | done].
  - intros (head & Hhead%target_re_match_spec & Hin). by rewrite Hhead.
Qed.

Section LineProvenance.

Variable lines : list string.
Variable name : string.

Lemma continuation_line_next (pre rest : list string) (cur : string) :
  lines = pre ++ cur :: rest →
  continuation_line lines (S (length pre))
  = continues (strip cur) && (continuation_line lines (length pre) || header_candidate cur).
Proof.
  intros ->. cbn [continuation_line].
  by rewrite lookup_app_r, Nat.sub_diag by lia.
Qed.

Lemma continuation_line_not_declared (i : nat) :
  continuation_line lines i = true → ¬ declares lines i name.
Proof. intros H (line & head & _ & Hc & _). congruence. Qed.

Lemma skip_continuation_spec (rest pre : list string) (cur : string) :
  lines = pre ++ cur :: rest →
  continuation_line lines (length pre) || header_candidate cur = true →
  match skip_continuation (strip cur) (Z.of_nat (length pre)) rest with
  | Some (i', rest') =>
      ∃ mid, rest = mid ++ rest'
             ∧ i' = Z.of_nat (length pre + 1 + length mid)
             ∧ (∀ j, (length pre < j ≤ length pre + length mid)%nat →
                     continuation_line lines j = true)
             ∧ continuation_line lines (length pre + 1 + length mid) = false
  | None => ∀ j, (length pre < j < length lines)%nat → continuation_line lines j = true
  end.
Proof.
  revert pre cur. induction rest as [|line' rest IH]; intros pre cur Hlines Hin;
    cbn [skip_continuation]; pose proof (continuation_line_next _ _ _ Hlines) as Hnext;
    rewrite Hin in Hnext; destruct (continues (strip cur)) eqn:Hcont.
  - intros j Hj. rewrite Hlines, length_app in Hj. simpl in Hj. lia.
  - exists []. split_and!; [done|simpl; lia|simpl; intros; lia|].
    by replace (length pre + 1 + length (@nil string))%nat with (S (length pre))
      by (simpl; lia).
  - specialize (IH (pre ++ [cur]) line').
    rewrite length_app in IH. simpl in IH.
    replace (length pre + 1)%nat with (S (length pre)) in IH by lia.
    rewrite Hnext in IH. rewrite <- app_assoc in IH. specialize (IH Hlines eq_refl).
    replace (Z.of_nat (length pre) + 1) with (Z.of_nat (S (length pre))) by lia.
    destruct (skip_continuation (strip line') (Z.of_nat (S (length pre))) rest)
      as [[i' rest']|].
    + destruct IH as (mid & -> & -> & Hmid & Hend). exists (line' :: mid).
      split_and!; [done|simpl; lia| |].
      * intros j Hj. simpl in Hj.
        destruct (decide (j = S (length pre))) as [->|]; [done|]. apply Hmid. lia.
      * by replace (length pre + 1 + length (line' :: mid))%nat
          with (S (length pre) + 1 + length mid)%nat by (simpl; lia).
    + intros j Hj. destruct (decide (j = S (length pre))) as [->|]; [done|].
      apply IH. lia.
  - exists []. split_and!; [done|simpl; lia|simpl; intros; lia|].
    by replace (length pre + 1 + length (@nil string))%nat with (S (length pre))
      by (simpl; lia).
Qed.

Lemma declares_header (pre rest : list string) (line : string) :
  lines = pre ++ line :: rest →
  continuation_line lines (length pre) = false →
  header_candidate line = true →
  declares lines (length pre) name ↔ name ∈ header_names line.
Proof.
  intros Hlines Hc Hh.
  assert (lines !! length pre = Some line) as Hl.
  { rewrite Hlines. by rewrite lookup_app_r, Nat.sub_diag by lia. }
  rewrite header_names_spec. unfold declares. split.
  - intros (line' & head & Hl' & _ & _ & Hhead & Hin).
    rewrite Hl in Hl'. injection Hl' as <-. eauto.
  - intros (head & Hhead & Hin). exists line, head. done.
Qed.

Lemma not_declares_plain (pre rest : list string) (line : string) :
  lines = pre ++ line :: rest →
  header_candidate line = false →
  ¬ declares lines (length pre) name.
Proof.
  intros Hlines Hh (line' & head & Hl' & _ & Hh' & _).
  rewrite Hlines, lookup_app_r, Nat.sub_diag in Hl' by lia.
  injection Hl' as <-. congruence.
Qed.

Lemma located_from_skip (k k' : nat) (result : option (Z * string)) :
  (k ≤ k')%nat →
  (∀ j, (k ≤ j < k')%nat → ¬ declares lines j name) →
  located_from lines name k' result → located_from lines name k result.
Proof.
  intros Hle Hnone. unfold located_from. destruct result as [[n text]|].
  - intros (i & Hi & -> & Hl & Hd & Hmin). exists i. split_and!; [lia|done|done|done|].
    intros j Hj. destruct (decide (j < k')%nat); [apply Hnone; lia | apply Hmin; lia].
  - intros H i Hi. destruct (decide (i < k')%nat); [apply Hnone; lia | apply H; lia].
Qed.

Lemma scan_lines_lookup (n : nat) :
  ∀ (rest pre : list string) (mapping : gmap string (Z * string)),
    (length rest ≤ n)%nat →
    lines = pre ++ rest →
    continuation_line lines (length pre) = false →
    match mapping !! name with
    | Some v => scan_lines (Z.of_nat (length pre)) rest mapping !! name = Some v
    | None => located_from lines name (length pre)
                (scan_lines (Z.of_nat (length pre)) rest mapping !! name)
    end.
Proof.
  induction n as [|n IH]; intros rest pre mapping Hlen Hlines Hcont.
  - destruct rest; [|simpl in Hlen; lia]. simpl.
    destruct (mapping !! name) eqn:E; [done|].
    intros i Hi (line & head & Hl & _). rewrite Hlines, app_nil_r in Hl.
    apply lookup_lt_Some in Hl. lia.
  - destruct rest as [|line rest].
    { apply (IH [] pre mapping); [simpl; lia|done|done]. }
    simpl in Hlen. rewrite scan_lines_cons.
    pose proof (continuation_line_next _ _ _ Hlines) as Hnext. rewrite Hcont in Hnext.
    assert (lines = (pre ++ [line]) ++ rest) as Hlines' by by rewrite <- app_assoc.
    assert (length (pre ++ [line]) = S (length pre)) as Hlen'
      by (rewrite length_app; simpl; lia).
    destruct (header_candidate line) eqn:Hh.
    + (* a rule header *)
      cbv zeta. set (mapping' := foldl _ mapping (header_names line)).
      assert (mapping' !! name = match mapping !! name with
                                 | Some v => Some v
                                 | None => if decide (name ∈ header_names line)
                                           then Some (Z.of_nat (length pre), line)
                                           else None
                                 end) as Hmap by apply setdefault_fold_lookup.
      pose proof (skip_continuation_spec rest pre line Hlines) as Hskip.
      rewrite Hcont, Hh in Hskip. specialize (Hskip eq_refl).
      pose proof (declares_header pre rest line Hlines Hcont Hh) as Hdecl.
      assert (lines !! length pre = Some line) as Hl.
      { rewrite Hlines. by rewrite lookup_app_r, Nat.sub_diag by lia. }
      destruct (skip_continuation (strip line) (Z.of_nat (length pre)) rest)
        as [[i' rest']|].
      * destruct Hskip as (mid & -> & -> & Hmid & Hend).
        specialize (IH rest' (pre ++ line :: mid) mapping').
        assert (length (pre ++ line :: mid) = (length pre + 1 + length mid)%nat) as Hl2
          by (rewrite length_app; simpl; lia).
        rewrite Hl2 in IH. rewrite length_app in Hlen.
        specialize (IH ltac:(lia)). rewrite <- app_assoc in IH. specialize (IH Hlines Hend).
        rewrite Hmap in IH. destruct (mapping !! name) as [v|]; [done|].
        destruct (decide (name ∈ header_names line)) as [Hin|Hnin].
        -- rewrite IH. exists (length pre). split_and!; [lia|done|done|by apply Hdecl|].
           intros j Hj. lia.
        -- eapply located_from_skip; [| |exact IH]; [lia|].
           intros j Hj. destruct (decide (j = length pre)) as [->|].
           ++ by rewrite Hdecl.
           ++ apply continuation_line_not_declared, Hmid. lia.
      * rewrite Hmap. destruct (mapping !! name) as [v|]; [done|].
        destruct (decide (name ∈ header_names line)) as [Hin|Hnin].
        -- exists (length pre). split_and!; [lia|done|done|by apply Hdecl|].
           intros j Hj. lia.
        -- intros i Hi. destruct (decide (i = length pre)) as [->|].
           ++ by rewrite Hdecl.
           ++ intros Hd. pose proof Hd as (l & _ & Hli & _).
              apply lookup_lt_Some in Hli.
              revert Hd. apply continuation_line_not_declared, Hskip. lia.
    + (* any other line *)
      rewrite andb_false_r in Hnext.
      specialize (IH rest (pre ++ [line]) mapping ltac:(lia) Hlines').
      rewrite Hlen' in IH. specialize (IH Hnext).
      replace (Z.of_nat (length pre) + 1) with (Z.of_nat (S (length pre))) by lia.
      destruct (mapping !! name) as [v|]; [done|].
      eapply located_from_skip; [| |exact IH]; [lia|].
      intros j Hj. assert (j = length pre) as -> by lia.
      by eapply not_declares_plain.
Qed.

End LineProvenance.

(** C3. The map [_compute_target_lines] returns sends a name to the line
    number and the text of the first rule header that declares it: no
    earlier line declares the name, so a later redeclaration never replaces
    the recorded provenance.  A name that no rule header declares is not a
    key of the map. *)
Theorem compute_target_lines_first_declaration (lines : list string) (name : string) :
  match _compute_target_lines lines !! name with
  | Some (n, text) =>
      ∃ i, n = Z.of_nat i ∧ lines !! i = Some text
           ∧ declares lines i name
           ∧ ∀ j, (j < i)%nat → ¬ declares lines j name
  | None => ∀ i, ¬ declares lines i name
  end.
Proof.
  pose proof (scan_lines_lookup lines name (length lines) lines [] ∅
                (le_n _) eq_refl eq_refl) as H.
  rewrite lookup_empty in H. unfold _compute_target_lines.
  change (Z.of_nat (length (@nil string))) with 0 in H.
  change (length (@nil string)) with 0%nat in H. unfold located_from in H.
  destruct (scan_lines 0 lines ∅ !! name) as [[n text]|].
  - destruct H as (i & _ & -> & Hl & Hd & Hmin). exists i. split_and!; try done.
    intros j Hj. apply Hmin. lia.
  - intros i. apply H. lia.
Qed.

(** *** The counter *)

Lemma counter_incr_keys (key : string) (counts : list (string * nat)) :
  (counter_incr key counts).*1
  = if decide (key ∈ counts.*1) then counts.*1 else counts.*1 ++ [key].
Proof.
  induction counts as [|[k n] counts IH]; [done|]. cbn [counter_incr].
  destruct (String.eqb_spec k key) as [->|Hne]; rewrite !fmap_cons; cbn [fst].
  - by rewrite decide_True by left.
  - rewrite IH. destruct (decide (key ∈ counts.*1)) as [Hin|Hnin].
    + by rewrite decide_True by (by right).
    + rewrite decide_False; [done|]. intros [?|?]%elem_of_cons; congruence.
Qed.

Lemma counter_get_incr (key c : string) (counts : list (string * nat)) :
  counter_get c (counter_incr key counts)
  = (counter_get c counts + if decide (key = c) then 1 else 0)%nat.
Proof.
  induction counts as [|[k n] counts IH]; simpl.
  - destruct (String.eqb_spec key c) as [->|Hne].
    + by rewrite decide_True.
    + by rewrite decide_False.
  - destruct (String.eqb_spec k key) as [->|Hne]; simpl.
    + destruct (String.eqb_spec key c) as [->|Hne'].
      * rewrite decide_True by done. lia.
      * rewrite decide_False by done. lia.
    + destruct (String.eqb_spec k c) as [->|Hne'].
      * rewrite decide_False by done. lia.
      * apply IH.
Qed.

Lemma counts_of_snoc (errors : list LintError) (e : LintError) :
  counts_of (errors ++ [e]) = counter_incr (error_type e) (counts_of errors).
Proof. unfold counts_of. by rewrite foldl_app. Qed.

Lemma counts_of_keys_elem (errors : list LintError) (c : string) :
  c ∈ (counts_of errors).*1 ↔ ∃ e, e ∈ errors ∧ error_type e = c.
Proof.
  induction errors as [|e errors IH] using rev_ind.
  - simpl. split; [by intros ?%elem_of_nil | by intros (e & ?%elem_of_nil & _)].
  - rewrite counts_of_snoc, counter_incr_keys.
    assert (c ∈ (counts_of errors).*1 ++ [error_type e]
            ↔ ∃ e', e' ∈ errors ++ [e] ∧ error_type e' = c) as Happ.
    { rewrite elem_of_app, IH, list_elem_of_singleton. split.
      - intros [(e' & Hin & Hty)| ->].
        + exists e'. split; [by apply elem_of_app; left | done].
        + exists e. split; [apply elem_of_app; right; by apply list_elem_of_singleton | done].
      - intros (e' & [Hin| ->%list_elem_of_singleton]%elem_of_app & Hty); [left; eauto | by right]. }
    destruct (decide (error_type e ∈ (counts_of errors).*1)) as [Hin|Hnin]; [|done].
    rewrite <- Happ, elem_of_app, list_elem_of_singleton.
    split; [auto | intros [?| ->]; done].
Qed.

Lemma counts_of_keys_NoDup (errors : list LintError) : NoDup (counts_of errors).*1.
Proof.
  induction errors as [|e errors IH] using rev_ind; [constructor|].
  rewrite counts_of_snoc, counter_incr_keys.
  destruct (decide _) as [Hin|Hnin]; [done|].
  apply NoDup_app. split_and!; [done| |apply NoDup_singleton].
  intros x Hx ->%list_elem_of_singleton. done.
Qed.

Lemma counts_of_get (errors : list LintError) (c : string) :
  counter_get c (counts_of errors) = count_of c errors.
Proof.
  unfold count_of. induction errors as [|e errors IH] using rev_ind; [done|].
  rewrite counts_of_snoc, counter_get_incr, IH, filter_app, length_app. f_equal.
  rewrite filter_cons, filter_nil. by destruct (decide (error_type e = c)).
Qed.

Lemma appears_before_snoc (errors : list LintError) (e : LintError) (a b : string) :
  appears_before errors a b → appears_before (errors ++ [e]) a b.
Proof.
  intros (i & e' & Hi & Hty & Hmin). exists i, e'.
  pose proof (lookup_lt_Some _ _ _ Hi) as Hlt.
  split_and!; [by rewrite lookup_app_l | done |].
  intros j e'' Hj Hl. rewrite lookup_app_l in Hl by lia. by eapply Hmin.
Qed.

Lemma counts_of_keys_before (errors : list LintError) (a b : string) :
  before (counts_of errors).*1 a b → appears_before errors a b.
Proof.
  induction errors as [|e errors IH] using rev_ind.
  - intros (i & j & _ & Hi & _). done.
  - rewrite counts_of_snoc, counter_incr_keys.
    destruct (decide _) as [Hin|Hnin].
    + intros H. by apply appears_before_snoc, IH.
    + intros (i & j & Hij & Hi & Hj).
      destruct (decide (j < length (counts_of errors).*1)%nat) as [Hlt|Hge].
      * apply appears_before_snoc, IH. exists i, j.
        rewrite !lookup_app_l in * by lia. done.
      * pose proof (lookup_lt_Some _ _ _ Hj) as Hjlt.
        rewrite length_app in Hjlt. simpl in Hjlt.
        assert (j = length (counts_of errors).*1) as -> by lia.
        rewrite lookup_app_r, Nat.sub_diag in Hj by lia. injection Hj as <-.
        rewrite lookup_app_l in Hi by lia.
        apply list_elem_of_lookup_2, counts_of_keys_elem in Hi as (ea & Hea & Hty).
        apply list_elem_of_lookup_1 in Hea as [i' Hi'].
        exists i', ea. pose proof (lookup_lt_Some _ _ _ Hi') as Hlt'.
        split_and!; [by rewrite lookup_app_l | done |].
        intros j' e' Hj' Hl Hty'. rewrite lookup_app_l in Hl by lia.
        apply Hnin, counts_of_keys_elem. exists e'.
        split; [by eapply list_elem_of_lookup_2 | done].
Qed.

(** *** The stable sort *)

Lemma sorted_insert_Permutation {A} (key : A → Z) (x : A) (s : list A) :
  sorted_insert key x s ≡ₚ x :: s.
Proof.
  induction s as [|y s IH]; simpl; [done|].
  destruct (key x <=? key y); [done|]. rewrite IH. apply Permutation_swap.
Qed.

Lemma sorted_by_Permutation {A} (key : A → Z) (l : list A) : sorted_by key l ≡ₚ l.
Proof.
  induction l as [|x l IH]; simpl; [done|].
  by rewrite sorted_insert_Permutation, IH.
Qed.

Lemma before_cons {A} (l : list A) (x a b : A) : before l a b → before (x :: l) a b.
Proof. intros (i & j & Hij & Hi & Hj). exists (S i), (S j). split_and!; [lia|done|done]. Qed.

Lemma before_head {A} (l : list A) (x b : A) : b ∈ l → before (x :: l) x b.
Proof.
  intros [j Hj]%list_elem_of_lookup_1. exists 0%nat, (S j). split_and!; [lia|done|done].
Qed.

Lemma StronglySorted_mono {A} (R R' : relation A) (l : list A) :
  (∀ a b, R a b → R' a b) → StronglySorted R l → StronglySorted R' l.
Proof.
  intros Hmono. induction 1 as [|a l Hl IH Ha]; constructor; [done|].
  eapply Forall_impl; [exact Ha | apply Hmono].
Qed.

Lemma sorted_insert_sorted {A} (key : A → Z) (x : A) (l s : list A) :
  StronglySorted (stable_order key l) s →
  (∀ y, y ∈ s → y ∈ l) →
  StronglySorted (stable_order key (x :: l)) (sorted_insert key x s).
Proof.
  assert (∀ a b, stable_order key l a b → stable_order key (x :: l) a b) as Hmono.
  { intros a b [?|[? ?]]; [by left | right; split; [done | by apply before_cons]]. }
  induction s as [|y s IH]; intros Hs Hin; simpl.
  - repeat constructor.
  - apply StronglySorted_inv in Hs as [Hs Hy].
    destruct (Z.leb_spec (key x) (key y)) as [Hle|Hgt].
    + constructor.
      * apply (StronglySorted_mono _ _ _ Hmono). by constructor.
      * assert (∀ z, z ∈ y :: s → key y ≤ key z) as Hkeys.
        { intros z [->|Hz]%elem_of_cons; [lia|].
          rewrite Forall_forall in Hy. destruct (Hy z Hz) as [?|[? _]]; lia. }
        apply Forall_forall. intros z Hz. specialize (Hkeys z Hz).
        destruct (decide (key x = key z)) as [Heq|Hne]; [|left; lia].
        right. split; [done|]. apply before_head, Hin, Hz.
    + constructor.
      * apply IH; [done|]. intros z Hz. apply Hin. by right.
      * apply Forall_forall. intros z Hz.
        rewrite sorted_insert_Permutation in Hz. apply elem_of_cons in Hz as [->|Hz].
        -- left. lia.
        -- rewrite Forall_forall in Hy. apply Hmono, Hy, Hz.
Qed.

Lemma sorted_by_sorted {A} (key : A → Z) (l : list A) :
  StronglySorted (stable_order key l) (sorted_by key l).
Proof.
  induction l as [|x l IH]; simpl; [constructor|].
  apply sorted_insert_sorted; [done|].
  intros y Hy. by rewrite sorted_by_Permutation in Hy.
Qed.

Lemma sorted_by_lookup {A} (key : A → Z) (l : list A) (i j : nat) (a b : A) :
  (i < j)%nat → sorted_by key l !! i = Some a → sorted_by key l !! j = Some b →
  stable_order key l a b.
Proof.
  intros Hij Hi Hj. pose proof (sorted_by_sorted key l) as Hs.
  rewrite <- (take_drop j (sorted_by key l)) in Hs.
  eapply StronglySorted_app_1_elem_of; [exact Hs| |].
  - apply list_elem_of_lookup_2 with i. by rewrite lookup_take_lt.
  - apply list_elem_of_lookup_2 with 0%nat. rewrite lookup_drop. by rewrite Nat.add_0_r.
Qed.

(** *** [first_seen] *)

Lemma first_seen_fold (errors : list LintError) (m : gmap string Z) (c : string) :
  foldl (λ first_seen err,
    match first_seen !! error_type err, err_line_number err with
    | None, Some n => <[error_type err := n]> first_seen
    | _, _ => first_seen
    end) m errors !! c
  = match m !! c with
    | Some n => Some n
    | None => first_line c errors
    end.
Proof.
  revert m. induction errors as [|e errors IH]; intros m; simpl.
  - by destruct (m !! c).
  - rewrite IH. destruct (decide (error_type e = c)) as [<-|Hne].
    + destruct (m !! error_type e) as [n|] eqn:E; [by rewrite E|].
      destruct (err_line_number e) as [n|]; [by rewrite lookup_insert_eq | by rewrite E].
    + destruct (m !! error_type e) as [n|] eqn:E; [done|].
      destruct (err_line_number e) as [n|]; [by rewrite lookup_insert_ne | done].
Qed.

Lemma first_seen_of_lookup (errors : list LintError) (c : string) :
  first_seen_of errors !! c = first_line c errors.
Proof. unfold first_seen_of. by rewrite first_seen_fold, lookup_empty. Qed.

Lemma first_line_elem (errors : list LintError) (c : string) (n : Z) :
  first_line c errors = Some n → ∃ e, e ∈ errors ∧ err_line_number e = Some n.
Proof.
  induction errors as [|e errors IH]; simpl; [done|].
  destruct (decide (error_type e = c)) as [_|_].
  - destruct (err_line_number e) as [n'|] eqn:E.
    + intros [= <-]. exists e. split; [by left | done].
    + intros (e' & ? & ?)%IH. exists e'. split; [by right | done].
  - intros (e' & ? & ?)%IH. exists e'. split; [by right | done].
Qed.

(** *** The summary *)

Lemma summarize_errors_unfold (errors : list LintError) :
  summarize_errors errors
  = join ", " ((λ c, c +:+ ": " +:+ pretty (count_of c errors))
               <$> sorted_by (λ key, default sys_maxsize (first_line key errors))
                             (counts_of errors).*1).
Proof.
  unfold summarize_errors. fold (counts_of errors). f_equal.
  assert (sorted_by (λ key, default sys_maxsize (first_seen_of errors !! key))
                    (counts_of errors).*1
          = sorted_by (λ key, default sys_maxsize (first_line key errors))
                      (counts_of errors).*1) as ->.
  { generalize (counts_of errors).*1. intros l. unfold sorted_by.
    induction l as [|x l IH]; simpl; [done|]. rewrite IH.
    generalize (foldr (sorted_insert (λ key, default sys_maxsize (first_line key errors)))
                      [] l).
    intros s. induction s as [|y s IHs]; simpl; [done|].
    rewrite !first_seen_of_lookup. by rewrite IHs. }
  apply list_fmap_ext. intros _ c _. by rewrite counts_of_get.
Qed.

(** C4 (amended). When every line number is below [sys.maxsize],
    [summarize_errors] renders one [<category>: <count>] pair per distinct
    category, joined by [", "], where the count is the number of findings of
    that category; the categories are ordered by the line number of their
    first finding that has one, categories without any line number come
    last, and among categories that tie the one that appears first in the
    sequence comes first. *)
Theorem summarize_errors_ordered (errors : list LintError) :
  line_numbers_below_maxsize errors → summary_property errors.
Proof.
  intros Hbound.
  exists (sorted_by (λ key, default sys_maxsize (first_line key errors))
                    (counts_of errors).*1).
  split_and!.
  - apply summarize_errors_unfold.
  - rewrite sorted_by_Permutation. apply counts_of_keys_NoDup.
  - intros c. rewrite sorted_by_Permutation. apply counts_of_keys_elem.
  - intros i j a b Hij Hi Hj.
    pose proof (sorted_by_lookup _ _ _ _ _ _ Hij Hi Hj) as Hord.
    unfold stable_order in Hord. unfold summary_before.
    destruct (first_line a errors) as [x|] eqn:Ea, (first_line b errors) as [y|] eqn:Eb;
      simpl in Hord.
    + destruct Hord as [?|[? ?%counts_of_keys_before]]; [by left | by right].
    + done.
    + apply first_line_elem in Eb as (e & He & Hn). specialize (Hbound e y He Hn).
      destruct Hord as [?|[? _]]; lia.
    + destruct Hord as [?|[_ ?%counts_of_keys_before]]; [lia | done].
Qed.

Example summarize_scenario :
  summarize_errors scenario_errors = "space instead of tab: 3, missing rule: 1".
Proof. by vm_compute. Qed.

(** C4 at the scenario of the specification. *)
Lemma summarize_errors_ordered_witness :
  line_numbers_below_maxsize scenario_errors ∧ summary_property scenario_errors.
Proof.
  assert (line_numbers_below_maxsize scenario_errors) as Hbound.
  { intros e n He Hn. unfold scenario_errors in He.
    repeat (apply elem_of_cons in He as [->|He]; [injection Hn as <-; reflexivity|]).
    by apply elem_of_nil in He. }
  split; [exact Hbound|]. exact (summarize_errors_ordered scenario_errors Hbound).
Defined.

(** C4 as stated fails: a category whose findings carry no line number is
    listed before a category whose first line number is [2 ^ 63], because
    the former is sorted under the key [sys.maxsize]. *)
Lemma summary_claim_fails : ¬ summary_property huge_line_errors.
Proof.
  intros (cats & Hrender & Hnd & Hmem & Hord).
  assert ("a" ∈ cats) as Ha.
  { apply Hmem. eexists. split; [right; left|]; done. }
  assert ("b" ∈ cats) as Hb.
  { apply Hmem. eexists. split; [left|]; done. }
  assert (∀ c, c ∈ cats → c = "a" ∨ c = "b") as Hcats.
  { intros c (e & He & <-)%Hmem. unfold huge_line_errors in He.
    apply elem_of_cons in He as [->|He]; [by right|].
    apply elem_of_cons in He as [->|He]; [by left|]. by apply elem_of_nil in He. }
  destruct cats as [|x [|y [|z cats]]].
  - by apply elem_of_nil in Ha.
  - apply list_elem_of_singleton in Ha, Hb. congruence.
  - destruct (Hcats x) as [-> | ->]; [by left| |];
      (destruct (Hcats y) as [-> | ->]; [right; by left| |]).
    + apply NoDup_cons in Hnd as [Hx _]. destruct Hx. by left.
    + vm_compute in Hrender. discriminate.
    + specialize (Hord 0%nat 1%nat "b" "a"). vm_compute in Hord. by apply Hord.
    + apply NoDup_cons in Hnd as [Hx _]. destruct Hx. by left.
  - apply NoDup_cons in Hnd as [Hx Hnd]. apply NoDup_cons in Hnd as [Hy Hnd].
    apply NoDup_cons in Hnd as [Hz _].
    rewrite !not_elem_of_cons in Hx. rewrite !not_elem_of_cons in Hy.
    destruct (Hcats x) as [-> | ->]; [by left| |];
      (destruct (Hcats y) as [-> | ->]; [right; by left| |]);
      (destruct (Hcats z) as [-> | ->]; [right; right; by left| |]);
      intuition congruence.
Qed.

(** ** The repository's test scenarios on the model *)

(** [parse_targets] on the rule of [all: foo] builds the store of
    [all_foo_store]. *)
Example parse_targets_all_foo :
  parse_targets
    [("target", {| rd_target := "all"; rd_all_targets := None; rd_docs := EmptyString;
                   rd_grouped := None; rd_deps := (["foo"], []) |})]
    (Some ["all: foo"])
  = (st_targets all_foo_store, st_deps all_foo_store, st_deps_map all_foo_store).
Proof. by vm_compute. Qed.

(** [test_missing_rule_line_info]: validation of [all: foo] fails with a
    ["missing rule"] finding attributed to line 0. *)
Example validate_all_foo :
  (validate nothing_on_disk None all_foo_store).1 = false
  ∧ {| error_type := "missing rule";
       message := "No rule to make target 'foo', needed by 'all'";
       err_line_number := Some 0; err_line_text := Some "all: foo" |}
    ∈ default [] (st_errors (validate nothing_on_disk None all_foo_store).2).
Proof. split; [by vm_compute|]. vm_compute. set_solver. Qed.

(** * Further properties of the validators *)

(** X1. [validate_target_comments] reports a record exactly when its
    documentation is empty: one ["target without comments"] finding with the
    record's own provenance, in the order of the records; it returns [True]
    exactly when every record is documented. *)
Theorem target_comments_reported (s : store) :
  ∃ per_target : list (list LintError),
    st_errors (validate_target_comments s).2
      = (λ errs, errs ++ concat per_target) <$> st_errors s
    ∧ Forall2 (λ t found,
        (doc t = EmptyString → found = [comment_finding t])
        ∧ (doc t ≠ EmptyString → found = []))
        (st_targets s) per_target
    ∧ ((validate_target_comments s).1 = true
       ↔ ∀ t, t ∈ st_targets s → doc t ≠ EmptyString).
Proof.
  exists (per_item (λ t, is_empty (doc t)) (λ t, [comment_finding t]) (st_targets s)).
  rewrite validate_target_comments_run. split_and!; [done| |].
  - apply per_item_singletons. intros t. apply is_empty_spec.
  - cbn [fst]. rewrite forallb_forall. split.
    + intros H t Ht Hdoc. apply list_elem_of_In, H in Ht.
      apply negb_true_iff in Ht. apply is_empty_spec in Hdoc. congruence.
    + intros H t Ht%list_elem_of_In. apply negb_true_iff, not_true_iff_false.
      intros Hdoc%is_empty_spec. by apply (H t).
Qed.

Section ValidatorFacts.

Variable fs : filesystem.

(** X2. Five of the validators return [True] exactly when they have nothing
    to report: the text check, the orphan check, the documentation check,
    the multiple-targets check and the directory check. *)
Theorem verdict_iff_nothing_reported (root_dir : string) (s : store) :
  ((validate_spaces s).1 = true ↔ reported validate_spaces s = [])
  ∧ ((validate_orphan_targets s).1 = true ↔ reported validate_orphan_targets s = [])
  ∧ ((validate_target_comments s).1 = true ↔ reported validate_target_comments s = [])
  ∧ ((validate_multiple_targets_colon s).1 = true
     ↔ reported validate_multiple_targets_colon s = [])
  ∧ ((validate_directory_order_only_dependencies fs root_dir s).1 = true
     ↔ reported (validate_directory_order_only_dependencies fs root_dir) s = []).
Proof.
  rewrite (reported_run _ _ _ _ validate_spaces_run).
  rewrite (reported_run _ _ _ _ validate_orphan_targets_run).
  rewrite (reported_run _ _ _ _ validate_target_comments_run).
  rewrite (reported_run _ _ _ _ validate_multiple_targets_colon_run).
  rewrite (reported_run _ _ _ _ (validate_directory_order_only_dependencies_run fs _)).
  rewrite validate_spaces_run, validate_orphan_targets_run, validate_target_comments_run,
    validate_multiple_targets_colon_run, validate_directory_order_only_dependencies_run.
  cbn [fst]. split_and!.
  - apply (bool_decide_eq_true (spaces_findings s = [])).
  - apply (orphan_verdict_iff s).
  - apply (comment_verdict_iff s).
  - apply (multiple_verdict_iff s).
  - apply (directory_verdict_iff fs root_dir s).
Qed.

(** X3. [validate_missing_rules] returns [True] exactly when every member of
    the dependency set is the name of a target record or exists on disk
    under the root; [deps_map] plays no part in the verdict. *)
Theorem missing_rules_verdict (root_dir : string) (s : store) :
  (validate_missing_rules fs root_dir s).1 = true
  ↔ ∀ d, d ∈ st_deps s →
         declared_in (st_targets s) d
         ∨ path_exists fs (_resolve_filesystem_path d root_dir) = true.
Proof.
  rewrite validate_missing_rules_run. cbn [fst]. rewrite forallb_forall. split.
  - intros H d Hd. apply elem_of_elements, list_elem_of_In, H in Hd.
    apply negb_true_iff in Hd.
    destruct (decide (d ∈ dom (target_map_of (st_targets s)))) as [Hin|Hnd];
      [left; by apply target_map_of_declared | right].
    destruct (path_exists fs (_resolve_filesystem_path d root_dir)) eqn:E; [done|].
    assert (missing_test fs root_dir (st_targets s) d = true) as Ht; [|congruence].
    apply missing_test_spec. split; [|done]. by rewrite <- target_map_of_declared.
  - intros H d Hd%list_elem_of_In%elem_of_elements.
    apply negb_true_iff, not_true_iff_false. intros [Hnd Hne]%missing_test_spec.
    destruct (H d Hd); [done | congruence].
Qed.

(** X4. The verdict of [validate] does not depend on the [errors] argument
    (a list with any contents, or [None]) nor on what was printed before. *)
Theorem validate_verdict_ignores_outputs (root_dir : option string) (s : store)
    (errors : option (list LintError)) (stderr : list string) :
  (validate fs root_dir (with_outputs errors stderr s)).1 = (validate fs root_dir s).1.
Proof. by rewrite !validate_run. Qed.

(** X5. Every finding of a run is also printed: [validate] extends the
    diagnostic stream by the messages of its findings, in their order, and
    it prints them whether or not an [errors] list was passed. *)
Theorem validate_prints_findings (root_dir : option string) (s : store) :
  st_stderr (validate fs root_dir s).2
  = st_stderr s ++ (message <$> reported (validate fs root_dir) s).
Proof.
  rewrite (reported_run _ _ _ _ (validate_run fs root_dir)).
  by rewrite validate_run.
Qed.

(** X6. A run of [validate] that returns [True] has reported nothing: the
    store, with its [errors] list and its diagnostic stream, is as before. *)
Theorem validate_true_changes_nothing (root_dir : option string) (s : store) :
  (validate fs root_dir s).1 = true → (validate fs root_dir s).2 = s.
Proof.
  intros Hv. apply verdict_true_no_findings in Hv.
  rewrite validate_run. cbn [snd]. by rewrite Hv, emit_nil.
Qed.

End ValidatorFacts.

(** X6 at a Makefile without findings. *)
Lemma validate_true_changes_nothing_witness :
  (validate nothing_on_disk None clean_store).1 = true
  ∧ (validate nothing_on_disk None clean_store).2 = clean_store.
Proof.
  assert ((validate nothing_on_disk None clean_store).1 = true) as Hv by by vm_compute.
  split; [exact Hv|].
  exact (validate_true_changes_nothing nothing_on_disk None clean_store Hv).
Defined.

Lemma spaces_loop_sorted (lines : list string) (k : Z) (prev : string) :
  StronglySorted (λ e1 e2, line_of e1 ≤ line_of e2)
                 (spaces_loop prev (enumerate_from k lines))
  ∧ Forall (λ e, k ≤ line_of e) (spaces_loop prev (enumerate_from k lines)).
Proof.
  revert k prev. induction lines as [|l lines IH]; intros k prev.
  - split; constructor.
  - cbn [enumerate_from spaces_loop]. destruct (IH (k + 1) l) as [Hs Hall].
    set (rest := spaces_loop l (enumerate_from (k + 1) lines)) in *.
    assert (Forall (λ e, k ≤ line_of e) rest) as Hall'.
    { eapply Forall_impl; [exact Hall|]. simpl. intros. lia. }
    assert (∀ e0, line_of e0 = k → Forall (λ e, line_of e0 ≤ line_of e) rest) as Hhead.
    { intros e0 He0. eapply Forall_impl; [exact Hall|]. simpl. intros. lia. }
    assert (line_of (trailing_finding k l) = k) as Ht by done.
    assert (line_of (space_finding k l) = k) as Hsp by done.
    unfold spaces_found. cbn [fst snd].
    destruct (trailing_test l), (space_test prev l); cbn [app].
    + split.
      * apply SSorted_cons; [apply SSorted_cons; [done | by apply Hhead]|].
        constructor; [lia | by apply Hhead].
      * constructor; [lia|]. constructor; [lia | done].
    + split; [apply SSorted_cons; [done | by apply Hhead] | constructor; [lia | done]].
    + split; [apply SSorted_cons; [done | by apply Hhead] | constructor; [lia | done]].
    + done.
Qed.

(** X7. Every finding of [validate_spaces] points into the raw lines: its
    line number is an index of the list and its line text is the line at
    that index.  The findings come in the order of the lines. *)
Theorem spaces_findings_located (s : store) :
  (∀ e, e ∈ reported validate_spaces s →
        ∃ (i : nat) line, st_lines s !! i = Some line
                          ∧ err_line_number e = Some (Z.of_nat i)
                          ∧ err_line_text e = Some line)
  ∧ ∀ (p q : nat) e1 e2,
      (p < q)%nat →
      reported validate_spaces s !! p = Some e1 →
      reported validate_spaces s !! q = Some e2 →
      line_of e1 ≤ line_of e2.
Proof.
  rewrite (reported_run _ _ _ _ validate_spaces_run).
  change (spaces_findings (with_errors [] s)) with (spaces_findings s).
  unfold spaces_findings, enumerate. split.
  - intros e (i & before & line & Hl & _ & [[_ ->]|[_ ->]])%spaces_loop_elem;
      exists i, line; by rewrite Z.add_0_l.
  - intros p q e1 e2 Hpq Hp Hq.
    destruct (spaces_loop_sorted (st_lines s) 0 EmptyString) as [Hs _].
    rewrite <- (take_drop q (spaces_loop _ _)) in Hs.
    eapply (StronglySorted_app_1_elem_of _ _ _ e1 e2) in Hs; [done| |].
    + apply list_elem_of_lookup_2 with p. by rewrite lookup_take_lt.
    + apply list_elem_of_lookup_2 with 0%nat. rewrite lookup_drop. by rewrite Nat.add_0_r.
Qed.

(** X8. For the line at index [i], [validate_spaces] reports trailing spaces
    exactly when stripping trailing whitespace changes the line, and a space
    instead of a tab exactly when the line starts with a space and the line
    before it, if there is one, does not end in a backslash once stripped. *)
Theorem spaces_findings_exact (s : store) (i : nat) (line : string) :
  st_lines s !! i = Some line →
  (trailing_finding (Z.of_nat i) line ∈ reported validate_spaces s
   ↔ rstrip line ≠ line)
  ∧ (space_finding (Z.of_nat i) line ∈ reported validate_spaces s
     ↔ startswith line " " = true
       ∧ ∀ (j : nat) before, i = S j → st_lines s !! j = Some before →
                             endswith (rstrip before) "\" = false).
Proof.
  intros Hline. rewrite (reported_run _ _ _ _ validate_spaces_run).
  change (spaces_findings (with_errors [] s)) with (spaces_findings s).
  unfold spaces_findings, enumerate. rewrite !spaces_loop_elem.
  assert (∀ l, trailing_test l = true ↔ rstrip l ≠ l) as Htrail.
  { intros l. unfold trailing_test. by rewrite negb_true_iff, String.eqb_neq. }
  assert (∀ before l, space_test before l = true
                      ↔ startswith l " " = true ∧ endswith (rstrip before) "\" = false)
    as Hspace.
  { intros before l. unfold space_test.
    rewrite !andb_true_iff, !negb_true_iff. split; [by intros (? & ? & _)|].
    intros [Hs He]. split_and!; [done|done|].
    destruct l as [|c l]; [done|]. cbn [startswith] in Hs.
    destruct (Ascii.eqb_spec " " c) as [<-|]; [done | discriminate]. }
  split; split.
  - intros (i' & before & l & Hl & _ & [[Ht He]|[_ He]]); [|done].
    apply (f_equal err_line_text) in He. simpl in He. injection He as ->.
    by apply Htrail.
  - intros Hne. destruct (lookup_lt_is_Some_2 (EmptyString :: st_lines s) i) as [before Hb].
    { apply lookup_lt_Some in Hline. simpl. lia. }
    exists i, before, line. split_and!; [done|done|]. left. split; [by apply Htrail|].
    by rewrite Z.add_0_l.
  - intros (i' & before & l & Hl & Hb & [[_ He]|[Ht He]]); [done|].
    pose proof (f_equal err_line_number He) as Hi. simpl in Hi.
    apply (f_equal err_line_text) in He. simpl in He. injection He as ->.
    assert (i' = i) as -> by (injection Hi; lia).
    apply Hspace in Ht as [Hstart Hcont]. split; [done|].
    intros j before' -> Hj. simpl in Hb. rewrite Hj in Hb. by injection Hb as <-.
  - intros [Hstart Hcont].
    destruct (lookup_lt_is_Some_2 (EmptyString :: st_lines s) i) as [before Hb].
    { apply lookup_lt_Some in Hline. simpl. lia. }
    exists i, before, line. split_and!; [done|done|]. right. split; [|by rewrite Z.add_0_l].
    apply Hspace. split; [done|]. destruct i as [|j].
    + injection Hb as <-. done.
    + simpl in Hb. by apply (Hcont j).
Qed.

(** X8 at the second line of a two-line file. *)
Lemma spaces_findings_exact_witness :
  (trailing_finding 1 "  x " ∈ reported validate_spaces indented_store
   ↔ rstrip "  x " ≠ "  x ")
  ∧ (space_finding 1 "  x " ∈ reported validate_spaces indented_store
     ↔ startswith "  x " " " = true
       ∧ ∀ (j : nat) before, 1%nat = S j →
           st_lines indented_store !! j = Some before →
           endswith (rstrip before) "\" = false).
Proof. exact (spaces_findings_exact indented_store 1 "  x " eq_refl). Defined.

Lemma endswith_refl (s : string) : endswith s s = true.
Proof. destruct s; cbn [endswith]; by rewrite String.eqb_refl. Qed.

Lemma endswith_app (a b : string) : endswith (a +:+ b) b = true.
Proof.
  induction a as [|c a IH]; [apply endswith_refl|].
  rewrite sapp_cons. cbn [endswith]. rewrite IH. apply orb_true_r.
Qed.

Lemma startswith_app (a b p : string) : startswith a p = true → startswith (a +:+ b) p = true.
Proof. rewrite !startswith_spec. intros [t ->]. exists (t +:+ b). by rewrite sapp_assoc. Qed.

(** X9. [_resolve_filesystem_path] returns a path that ends with the path it
    was given, and an absolute one whenever the root directory is absolute. *)
Theorem resolve_filesystem_path_shape (path root_dir : string) :
  endswith (_resolve_filesystem_path path root_dir) path = true
  ∧ (isabs root_dir = true → isabs (_resolve_filesystem_path path root_dir) = true).
Proof.
  unfold _resolve_filesystem_path, path_join.
  destruct (is_empty root_dir) eqn:Hroot; cbn [orb].
  - split; [apply endswith_refl|]. apply is_empty_spec in Hroot as ->. done.
  - destruct (isabs path) eqn:Habs; [split; [apply endswith_refl | done]|].
    unfold isabs in Habs. rewrite Habs. cbn [orb].
    destruct (endswith root_dir "/").
    + split; [apply endswith_app|]. unfold isabs. apply startswith_app.
    + split.
      * rewrite <- sapp_assoc. apply endswith_app.
      * unfold isabs. apply startswith_app.
Qed.

(** * Further properties of [parse_targets] *)

Lemma requesters_defaultdict_add deps_map item n d p :
  p ∈ requesters (defaultdict_add item n deps_map) d
  ↔ p ∈ requesters deps_map d ∨ (d = item ∧ p = n).
Proof.
  unfold requesters, defaultdict_add. destruct (decide (item = d)) as [->|Hne].
  - rewrite lookup_insert_eq. simpl. rewrite elem_of_union, elem_of_singleton. intuition (subst; auto; congruence).
  - rewrite lookup_insert_ne by done. intuition (subst; auto; congruence).
Qed.

Lemma requesters_add_names deps_map item names d p :
  p ∈ requesters (foldl (λ dm n, defaultdict_add item n dm) deps_map names) d
  ↔ p ∈ requesters deps_map d ∨ (d = item ∧ p ∈ names).
Proof.
  revert deps_map. induction names as [|n names IH]; intros deps_map; simpl.
  - rewrite elem_of_nil. intuition (subst; auto; congruence).
  - rewrite IH, requesters_defaultdict_add, elem_of_cons. intuition (subst; auto; congruence).
Qed.

Lemma add_items_deps names acc dep_arr d :
  d ∈ (add_items names acc dep_arr).1 ↔ d ∈ acc.1 ∨ d ∈ dep_arr.
Proof.
  revert acc. induction dep_arr as [|item dep_arr IH]; intros [D M]; simpl.
  - rewrite elem_of_nil. intuition (subst; auto; congruence).
  - unfold add_items in *. cbn [foldl]. rewrite IH. simpl.
    rewrite elem_of_union, elem_of_singleton, elem_of_cons. intuition (subst; auto; congruence).
Qed.

Lemma add_items_requesters names acc dep_arr d p :
  p ∈ requesters (add_items names acc dep_arr).2 d
  ↔ p ∈ requesters acc.2 d ∨ (d ∈ dep_arr ∧ p ∈ names).
Proof.
  revert acc. induction dep_arr as [|item dep_arr IH]; intros [D M]; simpl.
  - rewrite elem_of_nil. intuition (subst; auto; congruence).
  - unfold add_items in *. cbn [foldl]. rewrite IH. simpl.
    rewrite requesters_add_names, elem_of_cons. intuition (subst; auto; congruence).
Qed.

Lemma parse_token_unfold line_map acc tok :
  parse_token line_map acc tok
  = if is_target_token tok then
      (acc.1.1 ++ (token_record line_map tok <$> token_names tok),
       (add_items (token_names tok)
          (add_items (token_names tok) (acc.1.2, acc.2) (rd_deps tok.2).1)
          (rd_deps tok.2).2).1,
       (add_items (token_names tok)
          (add_items (token_names tok) (acc.1.2, acc.2) (rd_deps tok.2).1)
          (rd_deps tok.2).2).2)
    else acc.
Proof.
  destruct acc as [[records D] M], tok as [token_type data].
  unfold parse_token, is_target_token, token_names. cbn [fst snd].
  destruct (token_type =? "target")%string; cbn [negb]; [|done].
  destruct (rd_deps data) as [deps_list order_only_list] eqn:Hdeps. cbn [foldl fst snd].
  fold (add_items (default [rd_target data] (rd_all_targets data)) (D, M) deps_list).
  fold (add_items (default [rd_target data] (rd_all_targets data))
          (add_items (default [rd_target data] (rd_all_targets data)) (D, M) deps_list)
          order_only_list).
  destruct (add_items _ (add_items _ _ _) _) as [D' M']. f_equal. f_equal.
  generalize (default [rd_target data] (rd_all_targets data)). intros names.
  revert records. induction names as [|n names IH]; intros records; simpl.
  - by rewrite app_nil_r.
  - rewrite IH. rewrite <- app_assoc. simpl. unfold token_record. simpl.
    by rewrite Hdeps.
Qed.

Lemma parse_fold_records line_map ast acc :
  (foldl (parse_token line_map) acc ast).1.1
  = acc.1.1 ++ concat (token_records line_map <$> ast).
Proof.
  revert acc. induction ast as [|tok ast IH]; intros acc; simpl.
  - by rewrite app_nil_r.
  - rewrite IH, parse_token_unfold. unfold token_records at 2.
    destruct (is_target_token tok); simpl; [by rewrite <- app_assoc | done].
Qed.

Lemma parse_fold_deps line_map ast acc d :
  d ∈ (foldl (parse_token line_map) acc ast).1.2
  ↔ d ∈ acc.1.2
    ∨ ∃ tok, tok ∈ ast ∧ is_target_token tok = true ∧ d ∈ token_prerequisites tok.
Proof.
  revert acc. induction ast as [|tok ast IH]; intros acc; simpl.
  - split; [auto | intros [?|(tok & ?%elem_of_nil & _)]; done].
  - rewrite IH, parse_token_unfold. destruct (is_target_token tok) eqn:Htok.
    + cbn [fst snd]. rewrite !add_items_deps. cbn [fst]. unfold token_prerequisites.
      split.
      * intros [[[?|?]|?]|(tok' & ? & ? & ?)].
        -- by left.
        -- right. exists tok. rewrite elem_of_app. split_and!; [by left|done|by left].
        -- right. exists tok. rewrite elem_of_app. split_and!; [by left|done|by right].
        -- right. exists tok'. split_and!; [by right|done|done].
      * intros [?|(tok' & [->|?]%elem_of_cons & ? & Hd)].
        -- left. left. by left.
        -- left. apply elem_of_app in Hd as [?|?]; [left; by right | by right].
        -- right. by exists tok'.
    + split.
      * intros [?|(tok' & ? & ? & ?)]; [by left|]. right. exists tok'.
        split_and!; [by right|done|done].
      * intros [?|(tok' & [->|?]%elem_of_cons & ? & Hd)]; [by left|congruence|].
        right. by exists tok'.
Qed.

Lemma parse_fold_requesters line_map ast acc d p :
  p ∈ requesters (foldl (parse_token line_map) acc ast).2 d
  ↔ p ∈ requesters acc.2 d
    ∨ ∃ tok, tok ∈ ast ∧ is_target_token tok = true
             ∧ d ∈ token_prerequisites tok ∧ p ∈ token_names tok.
Proof.
  revert acc. induction ast as [|tok ast IH]; intros acc; simpl.
  - split; [auto | intros [?|(tok & ?%elem_of_nil & _)]; done].
  - rewrite IH, parse_token_unfold. destruct (is_target_token tok) eqn:Htok.
    + cbn [fst snd]. rewrite !add_items_requesters. cbn [snd].
      unfold token_prerequisites. split.
      * intros [[[?|[? ?]]|[? ?]]|(tok' & ? & ? & ? & ?)].
        -- by left.
        -- right. exists tok. rewrite elem_of_app. split_and!; [by left|done|by left|done].
        -- right. exists tok. rewrite elem_of_app. split_and!; [by left|done|by right|done].
        -- right. exists tok'. split_and!; [by right|done|done|done].
      * intros [?|(tok' & [->|?]%elem_of_cons & ? & Hd & ?)].
        -- left. left. by left.
        -- left. apply elem_of_app in Hd as [?|?]; [left; by right | by right].
        -- right. by exists tok'.
    + split.
      * intros [?|(tok' & ? & ? & ? & ?)]; [by left|]. right. exists tok'.
        split_and!; [by right|done|done|done].
      * intros [?|(tok' & [->|?]%elem_of_cons & ? & Hd & ?)]; [by left|congruence|].
        right. by exists tok'.
Qed.

(** X10. The records [parse_targets] returns are, token by token and in
    order, one record per name of every token tagged ["target"] (the names of
    [all_targets] when the token has that list, its [target] otherwise),
    each carrying the token's documentation, grouped flag ([False] when the
    token has none) and both prerequisite lists; any other token contributes
    no record. *)
Theorem parse_targets_records (ast : list token) (lines : option (list string)) :
  (parse_targets ast lines).1.1 = concat (token_records (line_map_of lines) <$> ast).
Proof.
  unfold parse_targets. fold (line_map_of lines). by rewrite parse_fold_records.
Qed.

(** X11. The dependency set [parse_targets] returns holds exactly the names
    listed as a normal or an order-only prerequisite by some token tagged
    ["target"]. *)
Theorem parse_targets_deps (ast : list token) (lines : option (list string)) (d : string) :
  d ∈ (parse_targets ast lines).1.2
  ↔ ∃ tok, tok ∈ ast ∧ is_target_token tok = true ∧ d ∈ token_prerequisites tok.
Proof.
  unfold parse_targets. fold (line_map_of lines). rewrite parse_fold_deps. simpl.
  split; [intros [?%elem_of_empty|?]; done | auto].
Qed.

(** X12. In the reverse-dependency map [parse_targets] returns, [p] is a
    requester of [d] exactly when some token tagged ["target"] lists [d] as
    a prerequisite (normal or order-only) and declares the name [p]. *)
Theorem parse_targets_requesters (ast : list token) (lines : option (list string))
    (d p : string) :
  p ∈ requesters (parse_targets ast lines).2 d
  ↔ ∃ tok, tok ∈ ast ∧ is_target_token tok = true
           ∧ d ∈ token_prerequisites tok ∧ p ∈ token_names tok.
Proof.
  unfold parse_targets. fold (line_map_of lines). rewrite parse_fold_requesters. simpl.
  split; [intros [H|?]; [|done] | auto].
  unfold requesters in H. rewrite lookup_empty in H. by apply elem_of_empty in H.
Qed.

Lemma elem_of_concat {A} (ls : list (list A)) (x : A) :
  x ∈ concat ls ↔ ∃ l, l ∈ ls ∧ x ∈ l.
Proof.
  induction ls as [|l ls IH]; simpl.
  - split; [by intros ?%elem_of_nil | by intros (l & ?%elem_of_nil & _)].
  - rewrite elem_of_app, IH. split.
    + intros [?|(l' & ? & ?)]; [exists l; split; [by left|done]|].
      exists l'. split; [by right|done].
    + intros (l' & [->|?]%elem_of_cons & ?); [by left|]. right. by exists l'.
Qed.

Lemma parse_targets_unfold (ast : list token) (lines : option (list string)) :
  parse_targets ast lines = foldl (parse_token (line_map_of lines)) ([], ∅, ∅) ast.
Proof. done. Qed.

Lemma requesters_empty (d p : string) : p ∉ requesters ∅ d.
Proof. unfold requesters. rewrite lookup_empty. apply not_elem_of_empty. Qed.

(** X13. In the model [parse_targets] returns, every requester recorded in
    [deps_map] is the name of one of the returned records, so the
    missing-rule check always finds the requester's provenance. *)
Theorem parse_targets_requesters_declared (ast : list token)
    (lines : option (list string)) (d p : string) :
  p ∈ requesters (parse_targets ast lines).2 d →
  declared_in (parse_targets ast lines).1.1 p.
Proof.
  rewrite parse_targets_unfold, parse_fold_requesters, parse_fold_records. simpl.
  intros [H|(tok & Htok & Htarget & _ & Hp)]; [by apply requesters_empty in H|].
  exists (token_record (line_map_of lines) tok p). split; [|done].
  apply elem_of_concat. exists (token_records (line_map_of lines) tok). split.
  - by apply list_elem_of_fmap_2.
  - unfold token_records. rewrite Htarget. by apply list_elem_of_fmap_2.
Qed.

(** X13 at the Makefile [all: foo]. *)
Lemma parse_targets_requesters_declared_witness :
  "all" ∈ requesters (parse_targets all_foo_tokens (Some ["all: foo"])).2 "foo"
  ∧ declared_in (parse_targets all_foo_tokens (Some ["all: foo"])).1.1 "all".
Proof.
  assert ("all" ∈ requesters (parse_targets all_foo_tokens (Some ["all: foo"])).2 "foo")
    as Hin.
  { apply parse_fold_requesters. right.
    exists ("target", {| rd_target := "all"; rd_all_targets := None;
                         rd_docs := EmptyString; rd_grouped := None;
                         rd_deps := (["foo"], []) |}).
    split_and!; [by left|done|by left|by left]. }
  split; [exact Hin|].
  exact (parse_targets_requesters_declared all_foo_tokens (Some ["all: foo"]) "foo" "all" Hin).
Defined.

Lemma compute_target_lines_located (lines : list string) (n : string) :
  located_from lines n 0 (_compute_target_lines lines !! n).
Proof.
  pose proof (scan_lines_lookup lines n (length lines) lines [] ∅
                (le_n _) eq_refl eq_refl) as H.
  by rewrite lookup_empty in H.
Qed.

(** X14. Every record [parse_targets] returns carries the provenance of the
    first rule header of the raw lines that declares its name: both the line
    number and the line text of that header, or neither when no rule header
    declares the name or no lines were passed. *)
Theorem parse_targets_provenance (ast : list token) (lines : option (list string))
    (t : TargetData) :
  t ∈ (parse_targets ast lines).1.1 →
  match line_number t, line_text t with
  | Some n, Some text =>
      ∃ ls (i : nat), lines = Some ls ∧ n = Z.of_nat i ∧ ls !! i = Some text
                      ∧ declares ls i (name t)
                      ∧ ∀ j, (j < i)%nat → ¬ declares ls j (name t)
  | None, None => ∀ ls, lines = Some ls → ∀ i, ¬ declares ls i (name t)
  | _, _ => False
  end.
Proof.
  rewrite parse_targets_unfold, parse_fold_records. simpl.
  intros (records & (tok & -> & _)%list_elem_of_fmap & Ht)%elem_of_concat.
  unfold token_records in Ht. destruct (is_target_token tok); [|by apply elem_of_nil in Ht].
  apply list_elem_of_fmap in Ht as (n & -> & _). simpl.
  destruct lines as [[|l ls]|]; simpl.
  - rewrite lookup_empty. simpl. intros ls [= <-] i (line & ? & Hl & _). done.
  - pose proof (compute_target_lines_located (l :: ls) n) as H.
    destruct (_compute_target_lines (l :: ls) !! n) as [[k text]|]; simpl.
    + destruct H as (i & _ & -> & Hl & Hd & Hmin). exists (l :: ls), i.
      split_and!; try done. intros j Hj. apply Hmin. lia.
    + intros ls' [= <-] i. apply H. lia.
  - rewrite lookup_empty. simpl. done.
Qed.

(** X14 at the Makefile [all: foo]. *)
Lemma parse_targets_provenance_witness :
  {| name := "all"; doc := EmptyString; line_number := Some 0;
     line_text := Some "all: foo"; grouped := false;
     deps := ["foo"]; order_only_deps := [] |}
    ∈ (parse_targets all_foo_tokens (Some ["all: foo"])).1.1
  ∧ ∃ ls (i : nat), Some ["all: foo"] = Some ls ∧ 0 = Z.of_nat i
                    ∧ ls !! i = Some "all: foo"
                    ∧ declares ls i "all"
                    ∧ ∀ j, (j < i)%nat → ¬ declares ls j "all".
Proof.
  assert ({| name := "all"; doc := EmptyString; line_number := Some 0;
             line_text := Some "all: foo"; grouped := false;
             deps := ["foo"]; order_only_deps := [] |}
            ∈ (parse_targets all_foo_tokens (Some ["all: foo"])).1.1) as Hin.
  { vm_compute. left. }
  split; [exact Hin|].
  exact (parse_targets_provenance all_foo_tokens (Some ["all: foo"]) _ Hin).
Defined.

Section RunValidation.

Variable fs : filesystem.

(** X15. When every token tagged ["target"] declares at least one name,
    linting the model that [parse_targets] builds gives a verdict that agrees
    with the findings: [run_validation] returns [True] exactly when it
    returns no finding. *)
Theorem run_validation_verdict (ast : list token) (lines : list string)
    (root_dir : option string) :
  (∀ tok, tok ∈ ast → is_target_token tok = true → token_names tok ≠ []) →
  (run_validation fs ast lines root_dir).1 = true
  ↔ (run_validation fs ast lines root_dir).2 = [].
Proof.
  intros Hnames. unfold run_validation.
  pose proof (λ d p, parse_fold_requesters (line_map_of (Some lines)) ast ([], ∅, ∅) d p)
    as Hreq.
  pose proof (λ d, parse_fold_deps (line_map_of (Some lines)) ast ([], ∅, ∅) d) as Hdeps.
  rewrite <- parse_targets_unfold in Hreq, Hdeps.
  destruct (parse_targets ast (Some lines)) as [[targets deps] dep_map].
  set (s := {| st_lines := lines; st_targets := targets; st_deps := deps;
               st_deps_map := dep_map; st_errors := Some []; st_stderr := [] |}).
  assert (requesters_known fs root_dir s) as Hknown.
  { intros d Hd _. apply Hdeps in Hd as [Hd|(tok & Htok & Htarget & Hd)];
      [by apply elem_of_empty in Hd|].
    destruct (token_names tok) as [|p names] eqn:En; [by destruct (Hnames tok)|].
    exists p. apply Hreq. right. exists tok. rewrite En. split_and!; try done. by left. }
  pose proof (verdict_true_no_findings fs root_dir s) as Hyes.
  pose proof (no_findings_verdict_true fs root_dir s Hknown) as Hno.
  rewrite validate_run in *. cbn [fst snd] in *. simpl.
  split; [apply Hyes | apply Hno].
Qed.

End RunValidation.

(** X15 at the Makefile [all: foo]. *)
Lemma run_validation_verdict_witness :
  (∀ tok, tok ∈ all_foo_tokens → is_target_token tok = true → token_names tok ≠ [])
  ∧ ((run_validation nothing_on_disk all_foo_tokens ["all: foo"] None).1 = true
     ↔ (run_validation nothing_on_disk all_foo_tokens ["all: foo"] None).2 = []).
Proof.
  assert (∀ tok, tok ∈ all_foo_tokens → is_target_token tok = true → token_names tok ≠ [])
    as Hnames.
  { intros tok Htok _. apply list_elem_of_singleton in Htok as ->. done. }
  split; [exact Hnames|].
  exact (run_validation_verdict nothing_on_disk all_foo_tokens ["all: foo"] None Hnames).
Defined.

(** * Further properties of the line scan and the summary *)

Lemma all_chars_app (p : ascii → bool) (s t : string) :
  all_chars p (s +:+ t) = all_chars p s && all_chars p t.
Proof.
  induction s as [|c s IH]; [done|]. rewrite sapp_cons. cbn [all_chars].
  by rewrite IH, andb_assoc.
Qed.

Lemma split_from_words (s word : string) (w : string) :
  all_chars (λ c, negb (is_space c)) word = true →
  w ∈ split_from word s → is_word w.
Proof.
  revert word. induction s as [|c s IH]; intros word Hword; cbn [split_from].
  - destruct word as [|c' word']; cbn [is_empty]; [by intros ?%elem_of_nil|].
    intros ->%list_elem_of_singleton. by split.
  - destruct (is_space c) eqn:Hc.
    + destruct word as [|c' word']; cbn [is_empty]; [by apply IH|].
      intros [->|?]%elem_of_cons; [by split | by eapply (IH EmptyString)].
    + apply IH. rewrite all_chars_app, Hword. cbn [all_chars]. by rewrite Hc.
Qed.

Lemma split_words (s w : string) : w ∈ split s → is_word w.
Proof. by apply split_from_words. Qed.

(** X16. Every key of the map [_compute_target_lines] returns is a name as
    [str.split] yields them: it is not empty and holds no whitespace. *)
Theorem compute_target_lines_keys (lines : list string) :
  map_Forall (λ n _, is_word n) (_compute_target_lines lines).
Proof.
  intros n [k text] Hn.
  pose proof (compute_target_lines_located lines n) as H. rewrite Hn in H.
  destruct H as (i & _ & _ & _ & (line & head & _ & _ & _ & _ & Hin) & _).
  by eapply split_words.
Qed.

Lemma count_of_cons (c : string) (e : LintError) (errors : list LintError) :
  count_of c (e :: errors)
  = ((if decide (error_type e = c) then 1 else 0) + count_of c errors)%nat.
Proof. unfold count_of. rewrite filter_cons. by destruct (decide (error_type e = c)). Qed.

Lemma sum_indicator (cats : list string) (c : string) :
  NoDup cats →
  sum_list ((λ c', if decide (c = c') then 1%nat else 0%nat) <$> cats)
  = if decide (c ∈ cats) then 1%nat else 0%nat.
Proof.
  induction 1 as [|c' cats Hnin Hnd IH]; [done|]. csimpl. rewrite IH.
  destruct (decide (c = c')) as [->|Hne].
  - rewrite decide_False by done. by rewrite decide_True by left.
  - destruct (decide (c ∈ cats)) as [Hin|Hnin'].
    + by rewrite decide_True by (by right).
    + rewrite decide_False; [done|]. intros [?|?]%elem_of_cons; done.
Qed.

Lemma sum_count_of (cats : list string) (errors : list LintError) :
  NoDup cats →
  (∀ e, e ∈ errors → error_type e ∈ cats) →
  sum_list ((λ c, count_of c errors) <$> cats) = length errors.
Proof.
  intros Hnd. induction errors as [|e errors IH]; intros Hall.
  - clear Hnd Hall. induction cats as [|c cats IHc]; [done|]. csimpl. by rewrite IHc.
  - assert (sum_list ((λ c, count_of c (e :: errors)) <$> cats)
            = (sum_list ((λ c', if decide (error_type e = c') then 1%nat else 0%nat) <$> cats)
               + sum_list ((λ c, count_of c errors) <$> cats))%nat) as ->.
    { clear Hnd IH Hall. induction cats as [|c cats IHc]; [done|]. csimpl.
      rewrite IHc, count_of_cons. lia. }
    rewrite sum_indicator by done. rewrite decide_True by (apply Hall; by left).
    rewrite IH; [done|]. intros e' He'. apply Hall. by right.
Qed.

(** X17. For every findings sequence, whatever its line numbers,
    [summarize_errors] lists every category of the sequence exactly once
    with the number of its findings, and these counts add up to the length
    of the sequence. *)
Theorem summarize_errors_counts (errors : list LintError) :
  ∃ cats : list string,
    summarize_errors errors
      = join ", " ((λ c, c +:+ ": " +:+ pretty (count_of c errors)) <$> cats)
    ∧ NoDup cats
    ∧ (∀ c, c ∈ cats ↔ ∃ e, e ∈ errors ∧ error_type e = c)
    ∧ sum_list ((λ c, count_of c errors) <$> cats) = length errors.
Proof.
  exists (sorted_by (λ key, default sys_maxsize (first_line key errors))
                    (counts_of errors).*1).
  assert (NoDup (sorted_by (λ key, default sys_maxsize (first_line key errors))
                           (counts_of errors).*1)) as Hnd.
  { rewrite sorted_by_Permutation. apply counts_of_keys_NoDup. }
  assert (∀ c, c ∈ sorted_by (λ key, default sys_maxsize (first_line key errors))
                             (counts_of errors).*1
               ↔ ∃ e, e ∈ errors ∧ error_type e = c) as Hmem.
  { intros c. rewrite sorted_by_Permutation. apply counts_of_keys_elem. }
  split_and!; [apply summarize_errors_unfold | done | done |].
  apply sum_count_of; [done|]. intros e He. apply Hmem. eauto.
Qed.

Lemma join_nil_inv (sep : string) (parts : list string) :
  join sep parts = EmptyString → parts = [] ∨ ∃ ps, parts = EmptyString :: ps.
Proof.
  destruct parts as [|p [|q ps]]; cbn [join]; [by left| |].
  - intros ->. right. by exists [].
  - intros [-> _]%sapp_eq_nil. right. by eexists.
Qed.

Lemma summarize_errors_nil_inv (errors : list LintError) :
  summarize_errors errors = EmptyString → errors = [].
Proof.
  rewrite summarize_errors_unfold. intros [Hnil|[ps Hps]]%join_nil_inv.
  - apply fmap_nil_inv in Hnil. destruct errors as [|e errors]; [done|].
    assert (error_type e ∈ sorted_by
              (λ key, default sys_maxsize (first_line key (e :: errors)))
              (counts_of (e :: errors)).*1) as Hin.
    { rewrite sorted_by_Permutation. apply counts_of_keys_elem. exists e.
      split; [by left|done]. }
    rewrite Hnil in Hin. by apply elem_of_nil in Hin.
  - destruct (sorted_by _ _) as [|c cats]; [done|]. csimpl in Hps.
    injection Hps as Hc _. apply sapp_eq_nil in Hc as [_ Hc].
    by apply sapp_eq_nil in Hc as [Hc _].
Qed.

(** X18. The summary is the empty string exactly when there is no finding,
    so a failure line names at least one category whenever something was
    found. *)
Theorem summarize_errors_empty (errors : list LintError) :
  summarize_errors errors = EmptyString ↔ errors = [].
Proof.
  split.
  - apply summarize_errors_nil_inv.
  - by intros ->.
Qed.

(** * Properties of [main] *)

Section Main.

Variable fs : filesystem.
Variable env : environment.

(** X19. When [main] returns, the file was read and parsed, and its outcome
    is that of [run_validation] on the parsed tokens and the lines of the
    text: on a [True] verdict the exit status is 0 and nothing was printed;
    otherwise the exit status is 1 and [main] printed the message of every
    finding, in order, and then the line [Makefile validation failed:]
    followed by the summary of those findings. *)
Theorem main_outcome (in_filename : string) (stderr : list string)
    (code : Z) (err : list string) :
  main fs env in_filename stderr = Some (code, err) →
  ∃ text ast,
    read_text env in_filename = Some text
    ∧ parse env text = Some ast
    ∧ ((run_validation fs ast (split_on newline text)
          (Some (main_root env in_filename))).1 = true
       ∧ code = 0 ∧ err = stderr
       ∨ (run_validation fs ast (split_on newline text)
            (Some (main_root env in_filename))).1 = false
         ∧ code = 1
         ∧ err = stderr
                 ++ (message <$> (run_validation fs ast (split_on newline text)
                                    (Some (main_root env in_filename))).2)
                 ++ ["Makefile validation failed: "
                     +:+ summarize_errors
                           (run_validation fs ast (split_on newline text)
                              (Some (main_root env in_filename))).2]).
Proof.
  unfold main, run_validation. fold (main_root env in_filename).
  destruct (read_text env in_filename) as [text|]; [|done].
  destruct (parse env text) as [ast|] eqn:Hparse; [|done].
  intros H. exists text, ast. split_and!; [done|done|].
  destruct (parse_targets ast (Some (split_on newline text))) as [[targets deps] deps_map].
  set (s := {| st_lines := split_on newline text; st_targets := targets; st_deps := deps;
               st_deps_map := deps_map; st_errors := Some []; st_stderr := stderr |}) in *.
  set (s0 := {| st_lines := split_on newline text; st_targets := targets; st_deps := deps;
                st_deps_map := deps_map; st_errors := Some []; st_stderr := [] |}).
  pose proof (verdict_true_no_findings fs (Some (main_root env in_filename)) s) as Hyes.
  rewrite !validate_run in *. cbn [fst snd] in *.
  change (all_findings fs (Some (main_root env in_filename)) s0)
    with (all_findings fs (Some (main_root env in_filename)) s).
  set (valid := _ && _) in *. destruct valid; cbn [negb] in H.
  - left. injection H as <- <-. rewrite (Hyes eq_refl). simpl. by rewrite app_nil_r.
  - right. injection H as <- <-. simpl. by rewrite app_assoc.
Qed.

(** X20. When the parser's tokens tagged ["target"] all declare at least one
    name, [main] returns 1 only with at least one finding, so the failure
    line it prints names at least one category. *)
Theorem main_failure_has_findings (in_filename : string) (stderr : list string)
    (text : string) (ast : list token) (err : list string) :
  read_text env in_filename = Some text →
  parse env text = Some ast →
  (∀ tok, tok ∈ ast → is_target_token tok = true → token_names tok ≠ []) →
  main fs env in_filename stderr = Some (1, err) →
  (run_validation fs ast (split_on newline text) (Some (main_root env in_filename))).2 ≠ []
  ∧ summarize_errors
      (run_validation fs ast (split_on newline text) (Some (main_root env in_filename))).2
    ≠ EmptyString.
Proof.
  intros Hread Hparse Hnames. unfold main, run_validation.
  fold (main_root env in_filename). rewrite Hread, Hparse.
  pose proof (λ d p, parse_fold_requesters (line_map_of (Some (split_on newline text)))
                       ast ([], ∅, ∅) d p) as Hreq.
  pose proof (λ d, parse_fold_deps (line_map_of (Some (split_on newline text)))
                     ast ([], ∅, ∅) d) as Hdeps.
  rewrite <- parse_targets_unfold in Hreq, Hdeps.
  destruct (parse_targets ast (Some (split_on newline text))) as [[targets deps] deps_map].
  set (s := {| st_lines := split_on newline text; st_targets := targets; st_deps := deps;
               st_deps_map := deps_map; st_errors := Some []; st_stderr := stderr |}) in *.
  set (s0 := {| st_lines := split_on newline text; st_targets := targets; st_deps := deps;
                st_deps_map := deps_map; st_errors := Some []; st_stderr := [] |}).
  assert (requesters_known fs (Some (main_root env in_filename)) s) as Hknown.
  { intros d Hd _. apply Hdeps in Hd as [Hd|(tok & Htok & Htarget & Hd)];
      [by apply elem_of_empty in Hd|].
    destruct (token_names tok) as [|p names] eqn:En; [by destruct (Hnames tok)|].
    exists p. apply Hreq. right. exists tok. rewrite En. split_and!; try done. by left. }
  pose proof (no_findings_verdict_true fs (Some (main_root env in_filename)) s Hknown)
    as Hno.
  rewrite !validate_run in *. cbn [fst snd] in *.
  change (all_findings fs (Some (main_root env in_filename)) s0)
    with (all_findings fs (Some (main_root env in_filename)) s).
  set (valid := _ && _) in *. destruct valid; cbn [negb]; [done|]. intros _.
  assert (all_findings fs (Some (main_root env in_filename)) s ≠ []) as Hne.
  { intros Hnil. by specialize (Hno Hnil). }
  simpl. split; [done|].
  intros Hsum. by apply summarize_errors_nil_inv in Hsum.
Qed.

End Main.

(** X19 at the Makefile [all: foo]. *)
Lemma main_outcome_witness :
  main nothing_on_disk all_foo_environment "Makefile" []
  = Some (1, ["all, is orphan - not marked as [FINAL] and no other target depends on it";
              "Target without comments: all";
              "No rule to make target 'foo', needed by 'all'";
              "Makefile validation failed: orphan target: 1, target without comments: 1, missing rule: 1"])
  ∧ ∃ text ast,
      read_text all_foo_environment "Makefile" = Some text
      ∧ parse all_foo_environment text = Some ast
      ∧ ((run_validation nothing_on_disk ast (split_on newline text)
            (Some (main_root all_foo_environment "Makefile"))).1 = true
         ∧ 1 = 0
         ∧ ["all, is orphan - not marked as [FINAL] and no other target depends on it";
            "Target without comments: all";
            "No rule to make target 'foo', needed by 'all'";
            "Makefile validation failed: orphan target: 1, target without comments: 1, missing rule: 1"]
           = []
         ∨ (run_validation nothing_on_disk ast (split_on newline text)
              (Some (main_root all_foo_environment "Makefile"))).1 = false
           ∧ 1 = 1
           ∧ ["all, is orphan - not marked as [FINAL] and no other target depends on it";
              "Target without comments: all";
              "No rule to make target 'foo', needed by 'all'";
              "Makefile validation failed: orphan target: 1, target without comments: 1, missing rule: 1"]
             = []
               ++ (message <$> (run_validation nothing_on_disk ast (split_on newline text)
                                  (Some (main_root all_foo_environment "Makefile"))).2)
               ++ ["Makefile validation failed: "
                   +:+ summarize_errors
                         (run_validation nothing_on_disk ast (split_on newline text)
                            (Some (main_root all_foo_environment "Makefile"))).2]).
Proof.
  assert (main nothing_on_disk all_foo_environment "Makefile" []
          = Some (1, ["all, is orphan - not marked as [FINAL] and no other target depends on it";
                      "Target without comments: all";
                      "No rule to make target 'foo', needed by 'all'";
                      "Makefile validation failed: orphan target: 1, target without comments: 1, missing rule: 1"]))
    as Hmain by by vm_compute.
  split; [exact Hmain|].
  exact (main_outcome nothing_on_disk all_foo_environment "Makefile" [] 1 _ Hmain).
Defined.

(** X20 at the Makefile [all: foo]. *)
Lemma main_failure_has_findings_witness :
  (run_validation nothing_on_disk all_foo_tokens (split_on newline all_foo_text)
     (Some (main_root all_foo_environment "Makefile"))).2 ≠ []
  ∧ summarize_errors
      (run_validation nothing_on_disk all_foo_tokens (split_on newline all_foo_text)
         (Some (main_root all_foo_environment "Makefile"))).2
    ≠ EmptyString.
Proof.
  apply (main_failure_has_findings nothing_on_disk all_foo_environment "Makefile" []
           all_foo_text all_foo_tokens
           ["all, is orphan - not marked as [FINAL] and no other target depends on it";
            "Target without comments: all";
            "No rule to make target 'foo', needed by 'all'";
            "Makefile validation failed: orphan target: 1, target without comments: 1, missing rule: 1"]).
  - reflexivity.
  - reflexivity.
  - intros tok Htok _. apply list_elem_of_singleton in Htok as ->. discriminate.
  - by vm_compute.
Defined.

(** * The lines [main] works on *)

Lemma join_cons_cons (sep p q : string) (ps : list string) :
  join sep (p :: q :: ps) = p +:+ sep +:+ join sep (q :: ps).
Proof. done. Qed.

Lemma split_on_from_cons (sep : ascii) (piece s : string) :
  ∃ p ps, split_on_from sep piece s = p :: ps.
Proof.
  revert piece. induction s as [|c s IH]; intros piece; cbn [split_on_from]; [eauto|].
  destruct (Ascii.eqb c sep); [eauto | apply IH].
Qed.

Lemma split_on_from_join (sep : ascii) (piece s : string) :
  join (String sep EmptyString) (split_on_from sep piece s) = piece +:+ s.
Proof.
  revert piece. induction s as [|c s IH]; intros piece; cbn [split_on_from].
  - by rewrite sapp_nil_r.
  - destruct (Ascii.eqb_spec c sep) as [->|Hne].
    + destruct (split_on_from_cons sep EmptyString s) as (p & ps & Hp).
      specialize (IH EmptyString). rewrite Hp in *. by rewrite join_cons_cons, IH.
    + by rewrite IH, sapp_assoc.
Qed.

Lemma split_on_from_free (sep : ascii) (piece s line : string) :
  all_chars (λ c, negb (Ascii.eqb c sep)) piece = true →
  line ∈ split_on_from sep piece s →
  all_chars (λ c, negb (Ascii.eqb c sep)) line = true.
Proof.
  revert piece. induction s as [|c s IH]; intros piece Hpiece; cbn [split_on_from].
  - by intros ->%list_elem_of_singleton.
  - destruct (Ascii.eqb c sep) eqn:Hc.
    + intros [->|?]%elem_of_cons; [done | by apply (IH EmptyString)].
    + apply IH. rewrite all_chars_app, Hpiece. cbn [all_chars]. by rewrite Hc.
Qed.

(** X21. Splitting a text into lines loses nothing: the lines [main] works
    on, joined by newlines, give back the text of the file, there is at
    least one line, and no line holds a newline. *)
Theorem split_lines_round_trip (text : string) :
  join (String newline EmptyString) (split_on newline text) = text
  ∧ split_on newline text ≠ []
  ∧ ∀ line, line ∈ split_on newline text →
            all_chars (λ c, negb (Ascii.eqb c newline)) line = true.
Proof.
  unfold split_on. split_and!.
  - by rewrite split_on_from_join.
  - by destruct (split_on_from_cons newline EmptyString text) as (p & ps & ->).
  - intros line. by apply split_on_from_free.
Qed.

(** * Order of the missing-rule findings and stability of the line scan *)

Lemma sorted_names_sorted (names : gset string) :
  StronglySorted String.le (sorted_names names).
Proof. apply StronglySorted_merge_sort; apply _. Qed.

Section MissingRulesOrder.

Variable fs : filesystem.

(** X22. For one missing prerequisite, [validate_missing_rules] reports its
    requesters in ascending order of their names: the findings of the run are
    the concatenation, over the members of the dependency set, of one
    finding per name of a list of requesters that is sorted. *)
Theorem missing_rules_sorted (root_dir : string) (s : store) :
  ∃ per_dep : list (list string),
    st_errors (validate_missing_rules fs root_dir s).2
      = (λ errs, errs ++ concat
           (zip_with (λ d parents, missing_rule_finding (st_targets s) d <$> parents)
                     (elements (st_deps s)) per_dep)) <$> st_errors s
    ∧ length per_dep = length (elements (st_deps s))
    ∧ Forall (StronglySorted String.le) per_dep.
Proof.
  exists ((λ d, if missing_test fs root_dir (st_targets s) d
                then sorted_names (default ∅ (st_deps_map s !! d)) else [])
          <$> elements (st_deps s)).
  rewrite validate_missing_rules_run. split_and!.
  - cbn [snd emit st_errors]. unfold missing_findings, per_item, missing_found.
    assert (concat ((λ x, if missing_test fs root_dir (st_targets s) x
                          then missing_rule_finding (st_targets s) x
                                 <$> sorted_names (default ∅ (st_deps_map s !! x))
                          else []) <$> elements (st_deps s))
            = concat (zip_with
                (λ d parents, missing_rule_finding (st_targets s) d <$> parents)
                (elements (st_deps s))
                ((λ d, if missing_test fs root_dir (st_targets s) d
                       then sorted_names (default ∅ (st_deps_map s !! d)) else [])
                 <$> elements (st_deps s)))) as ->; [|done].
    induction (elements (st_deps s)) as [|d ds IH]; [done|]. csimpl. rewrite IH.
    by destruct (missing_test fs root_dir (st_targets s) d).
  - by rewrite length_fmap.
  - apply Forall_fmap, Forall_forall. intros d _. simpl.
    destruct (missing_test fs root_dir (st_targets s) d); [|constructor].
    apply sorted_names_sorted.
Qed.

End MissingRulesOrder.

Lemma continuation_line_app (lines more : list string) (i : nat) :
  (i ≤ length lines)%nat →
  continuation_line (lines ++ more) i = continuation_line lines i.
Proof.
  induction i as [|j IH]; intros Hi; [done|]. cbn [continuation_line].
  rewrite lookup_app_l by lia. rewrite IH by lia. done.
Qed.

Lemma declares_app (lines more : list string) (i : nat) (n : string) :
  (i < length lines)%nat →
  declares (lines ++ more) i n ↔ declares lines i n.
Proof.
  intros Hi. unfold declares.
  rewrite continuation_line_app by lia. by rewrite lookup_app_l by lia.
Qed.

(** X23. Lines added at the end of a file never change the provenance
    already found: the map [_compute_target_lines] returns for a list of
    lines is contained in the map it returns for any extension of that
    list. *)
Theorem compute_target_lines_extend (lines more : list string) :
  _compute_target_lines lines ⊆ _compute_target_lines (lines ++ more).
Proof.
  apply map_subseteq_spec. intros n [k text] Hn.
  pose proof (compute_target_lines_located lines n) as H. rewrite Hn in H.
  destruct H as (i & _ & -> & Hl & Hd & Hmin).
  pose proof (lookup_lt_Some _ _ _ Hl) as Hi.
  pose proof (compute_target_lines_located (lines ++ more) n) as H'.
  destruct (_compute_target_lines (lines ++ more) !! n) as [[k' text']|].
  - destruct H' as (i' & _ & -> & Hl' & Hd' & Hmin').
    assert (i' = i) as ->.
    { destruct (decide (i' < i)%nat) as [Hlt|Hge].
      - destruct (Hmin i'); [lia|]. apply (declares_app lines more); [lia|done].
      - destruct (decide (i < i')%nat) as [Hlt|?]; [|lia].
        destruct (Hmin' i); [lia|]. by apply declares_app. }
    rewrite lookup_app_l in Hl' by done. congruence.
  - destruct (H' i); [lia|]. by apply declares_app.
Qed.
